(** * Grid detection for battlemap images: a shallow embedding

    The detection pipeline of the Quick Battlemap importer exists twice in the
    repository: factored into [signal-processing-utils.js] and
    [grid-detection-service.js], and embedded in the drop handler class of
    [drop-handler.js].  Both are embedded here, function by function.

    Numbers.  In the pipeline JavaScript numbers are modelled as exact
    rationals [Q]; the rounding of doubles and of [Float32Array] stores and
    overflow to [Infinity] are not modelled there.  [-Infinity] as the start
    value of a running maximum is [None]; [NaN] only arises from [%] by zero
    in the manual fallback and is a constructor of [jsnum].  Integers
    produced by [Math.floor], [Math.round], [| 0] and loop counters are [Z]
    or [nat].  [Math.hypot] is a parameter of the Sobel functions.

    Which offset [estimateGridOffset] returns depends on how the averages
    it compares are rounded, so that function is embedded a second time,
    operation for operation, over IEEE 754 binary64 (module [Binary64]), and
    its properties are proved there. *)

From Stdlib Require Import String.
From Stdlib Require Import ZArith QArith Qround Qabs Qminmax.
From Stdlib Require Import List Bool Lia Lqa.
From Stdlib Require Import Permutation Sorted.
From Stdlib Require Import Floats.
From Stdlib Require Uint63.
Import ListNotations.

Local Open Scope Q_scope.

(* ================================================================== *)
(** ** JavaScript primitives used by the pipeline *)

Module JS.

(** Strict comparison [a < b] on numbers. *)
Definition ltb (a b : Q) : bool := negb (Qle_bool b a).

(** [a >= b]. *)
Definition geb (a b : Q) : bool := Qle_bool b a.

(** [x || 1] on a number: [0] is the only falsy rational. *)
Definition or_one (x : Q) : Q := if Qeq_bool x 0 then 1 else x.

(** Truncation toward zero, the first half of [ToInt32]. *)
Definition trunc (q : Q) : Z := Z.quot (Qnum q) (Zpos (Qden q)).

(** [q | 0]: truncate, then wrap to a signed 32-bit integer. *)
Definition to_int32 (q : Q) : Z :=
  ((trunc q + 2 ^ 31) mod 2 ^ 32 - 2 ^ 31)%Z.

(** [Math.round]: nearest integer, halves toward [+Infinity]. *)
Definition round (q : Q) : Z := Qfloor (q + (1 # 2)).

(** A number that may be [NaN]. *)
Inductive jsnum : Type :=
| Num (q : Q)
| NaN.

(** [a % b] for a finite dividend: the remainder has the sign of [a];
    a zero divisor gives [NaN]. *)
Definition rem (a b : Q) : jsnum :=
  if Qeq_bool b 0 then NaN
  else Num (a - b * inject_Z (trunc (a / b))).

(** Array read [a[i]] with a natural index.  Every read of the pipeline is
    in range (the loops guard their indices); out of range JavaScript yields
    [undefined], which the model does not represent. *)
Definition get (a : list Q) (i : nat) : Q := nth i a 0.

(** Array read with an integer index. *)
Definition getZ (a : list Q) (i : Z) : Q := nth (Z.to_nat i) a 0.

(** Typed-array store [a[i] = v]: a store past the end is ignored. *)
Fixpoint set (a : list Q) (i : nat) (v : Q) : list Q :=
  match a, i with
  | [], _ => []
  | _ :: t, O => v :: t
  | x :: t, S j => x :: set t j v
  end.

(** [new Float32Array(n)]: [n] zeros. *)
Definition zeros (n : nat) : list Q := repeat 0 n.

(** [Array.prototype.sort] with a comparator: [cmp a b > 0] puts [a]
    after [b]; the sort is stable, so elements that compare [<= 0] keep
    their order.  Insertion from the right realises exactly that order. *)
Fixpoint sort_insert {A} (cmp : A -> A -> Q) (x : A) (l : list A) : list A :=
  match l with
  | [] => [x]
  | y :: t => if ltb 0 (cmp x y) then y :: sort_insert cmp x t
              else x :: y :: t
  end.

Definition sort {A} (cmp : A -> A -> Q) (l : list A) : list A :=
  fold_right (sort_insert cmp) [] l.

(** Running maximum started at [-Infinity] ([None]) and updated by
    [if (v > max) max = v]. *)
Definition max_step (m : option Q) (v : Q) : option Q :=
  match m with
  | None => Some v
  | Some m' => if ltb m' v then Some v else m
  end.

(** Running minimum started at [Infinity] ([None]). *)
Definition min_step (m : option Q) (v : Q) : option Q :=
  match m with
  | None => Some v
  | Some m' => if ltb v m' then Some v else m
  end.

End JS.

(* ================================================================== *)
(** ** signal-processing-utils.js *)

Module SignalProcessingUtils.

Record AutocorrelationEntry : Type := mkEntry { lag : Z; val : Q }.

Record PeriodCandidate : Type := mkCandidate { value : Z; score : Q }.

(** Sum loop [for (i = 0; i < n; i++) sum += signal[i]]. *)
Definition sum_signal (signal : list Q) : Q := fold_left Qplus signal 0.

(** Inner loop of the autocorrelation:
    [for (i = 0; i + lag < signalLength; i++)
       numerator += (signal[i] - mean) * (signal[i + lag] - mean)].
    Lags are non-negative in every call of the pipeline. *)
Definition numerator_at (signal : list Q) (mean : Q) (lag : Z) : Q :=
  fold_left
    (fun numerator i =>
       numerator + (JS.get signal i - mean)
                   * (JS.getZ signal (Z.of_nat i + lag) - mean))
    (seq 0 (Z.to_nat (Z.of_nat (length signal) - lag)))
    0.

(** The lags visited by [for (lag = minLag; lag <= maxLag; lag++)]. *)
Definition lag_range (minLag maxLag : Z) : list Z :=
  map (fun k => (minLag + Z.of_nat k)%Z)
      (seq 0 (Z.to_nat (maxLag - minLag + 1))).

(** The pipeline calls this with a signal of at least one sample; on the
    empty signal JavaScript's mean is [NaN] and unused, here it is 0. *)
Definition computeAutocorrelation (signal : list Q) (minLag maxLag : Z)
  : list AutocorrelationEntry :=
  let signalLength := length signal in
  let sum := sum_signal signal in
  let mean := sum / inject_Z (Z.of_nat signalLength) in
  let denominator :=
    fold_left (fun denominator s =>
                 let deviation := s - mean in
                 denominator + deviation * deviation)
              signal 0 in
  let denominator := JS.or_one denominator in
  map (fun lag => {| lag := lag;
                     val := numerator_at signal mean lag / denominator |})
      (lag_range minLag maxLag).

(** One iteration of the sliding-window loop of the high-pass filter; the
    state is the running sum and the output written so far. *)
Definition highpass_step (signal : list Q) (halfWindow : Z)
           (st : Q * list Q) (i : nat) : Q * list Q :=
  let length := Z.of_nat (List.length signal) in
  let '(runningSum, output) := st in
  let leftBoundary := (Z.of_nat i - halfWindow - 1)%Z in
  let rightBoundary := (Z.of_nat i + halfWindow)%Z in
  let runningSum :=
    if ((rightBoundary <? length) && (Z.of_nat i + halfWindow <? length))%Z
    then runningSum + JS.getZ signal rightBoundary
    else runningSum in
  let runningSum :=
    if (leftBoundary >=? 0)%Z
    then runningSum - JS.getZ signal leftBoundary
    else runningSum in
  let spanStart := Z.max 0 (Z.of_nat i - halfWindow) in
  let spanEnd := Z.min (length - 1) (Z.of_nat i + halfWindow) in
  let spanSize :=
    let s := (spanEnd - spanStart + 1)%Z in
    if (s =? 0)%Z then 1%Z else s in
  let localAverage := runningSum / inject_Z spanSize in
  (runningSum, output ++ [JS.get signal i - localAverage]).

(** [if (output[i] < 0) output[i] *= 0.2]. *)
Definition suppress_negative (v : Q) : Q :=
  if JS.ltb v 0 then v * (2 # 10) else v.

(** [Math.max(3, windowSize | 0)]. *)
Definition effective_window (windowSize : Q) : Z :=
  Z.max 3 (JS.to_int32 windowSize).

(** The body of [applyHighPassFilter] below the line that fixes
    [effectiveWindow]. *)
Definition sliding_highpass (signal : list Q) (effectiveWindow : Z)
  : list Q :=
  let length := List.length signal in
  (* (effectiveWindow / 2) | 0 with 3 <= effectiveWindow < 2^31 *)
  let halfWindow := (effectiveWindow / 2)%Z in
  let initialWindowSize := Nat.min length (Z.to_nat effectiveWindow) in
  let runningSum :=
    fold_left (fun runningSum i => runningSum + JS.get signal i)
              (seq 0 initialWindowSize) 0 in
  let '(_, output) :=
    fold_left (highpass_step signal halfWindow) (seq 0 length)
              (runningSum, []) in
  map suppress_negative output.

Definition applyHighPassFilter (signal : list Q) (windowSize : Q) : list Q :=
  sliding_highpass signal (effective_window windowSize).

Definition normalizeSignal (signal : list Q) : list Q :=
  let maxValue := fold_left JS.max_step signal None in
  let minValue := fold_left JS.min_step signal None in
  match maxValue, minValue with
  | Some maxValue, Some minValue =>
      let range := JS.or_one (maxValue - minValue) in
      map (fun s => (s - minValue) / range) signal
  | _, _ => []   (* empty signal: nothing to rescale *)
  end.

Definition dummy_entry : AutocorrelationEntry := {| lag := 0; val := 0 |}.

(** Array read on a curve; all reads below are in range. *)
Definition entry_at (autocorrelation : list AutocorrelationEntry) (i : nat)
  : AutocorrelationEntry := nth i autocorrelation dummy_entry.

Definition isPeak (autocorrelation : list AutocorrelationEntry) (i : nat)
  : bool :=
  JS.ltb (val (entry_at autocorrelation (i - 1)))
         (val (entry_at autocorrelation i))
  && JS.geb (val (entry_at autocorrelation i))
            (val (entry_at autocorrelation (i + 1))).

(** [for (i = 1; i < autocorrelation.length - 1; i++)
       if (isPeak) peaks.push(autocorrelation[i])]. *)
Definition find_peaks (autocorrelation : list AutocorrelationEntry)
  : list AutocorrelationEntry :=
  fold_left
    (fun peaks i =>
       if isPeak autocorrelation i
       then peaks ++ [entry_at autocorrelation i]
       else peaks)
    (seq 1 (length autocorrelation - 2))
    [].

Definition by_val_desc (a b : AutocorrelationEntry) : Q := val b - val a.

Definition by_lag_asc (a b : AutocorrelationEntry) : Q :=
  inject_Z (lag a - lag b).

Definition findBestPeriodFromAutocorrelation
           (autocorrelation : list AutocorrelationEntry)
  : option PeriodCandidate :=
  match autocorrelation with
  | [] => None
  | _ =>
      let peaks := find_peaks autocorrelation in
      match peaks with
      | [] => None
      | _ =>
          let peaks := JS.sort by_val_desc peaks in
          let topPeaks := JS.sort by_lag_asc (firstn 5 peaks) in
          match topPeaks with
          | bestPeak :: _ =>
              Some {| value := lag bestPeak; score := val bestPeak |}
          | [] => None   (* not reached: topPeaks is not empty *)
          end
      end
  end.

Definition combinePeriodCandidates (periodX periodY : option PeriodCandidate)
  : option Q :=
  match periodX, periodY with
  | Some periodX, Some periodY =>
      if Qle_bool (Qabs (inject_Z (value periodX - value periodY))) 2
      then Some (inject_Z (value periodX + value periodY) / 2)
      else if JS.geb (score periodX) (score periodY)
           then Some (inject_Z (value periodX))
           else Some (inject_Z (value periodY))
  | Some periodX, None => Some (inject_Z (value periodX))
  | None, Some periodY => Some (inject_Z (value periodY))
  | None, None => None
  end.

(** [for (i = offset; i < length; i += period) { sum += signal[i] *
    normalizer; count++ }], with one unit of [fuel] per iteration. *)
Fixpoint sample_loop (fuel : nat) (signal : list Q) (normalizer : Q)
         (period i : nat) (sum : Q) (count : nat) : Q * nat :=
  match fuel with
  | O => (sum, count)
  | S fuel' =>
      if (i <? length signal)%nat
      then sample_loop fuel' signal normalizer period (i + period)
                       (sum + JS.get signal i * normalizer) (S count)
      else (sum, count)
  end.

(** [count ? sum / count : -Infinity]. *)
Definition offset_score (signal : list Q) (normalizer : Q)
           (period offset : nat) : option Q :=
  let '(sum, count) :=
    sample_loop (length signal) signal normalizer period offset 0 0%nat in
  match count with
  | O => None
  | _ => Some (sum / inject_Z (Z.of_nat count))
  end.

(** [score > bestScore] where [None] is [-Infinity]. *)
Definition score_gt (score bestScore : option Q) : bool :=
  match score, bestScore with
  | Some s, Some b => JS.ltb b s
  | Some _, None => true
  | None, _ => false
  end.

(** [maxValue ? 1 / maxValue : 1]; for the empty signal [maxValue] stays
    [-Infinity] and the quotient is [-0]. *)
Definition offset_normalizer (signal : list Q) : Q :=
  match fold_left JS.max_step signal None with
  | Some maxValue => if Qeq_bool maxValue 0 then 1 else 1 / maxValue
  | None => 0
  end.

(** The estimator as the pipeline uses it, over exact rationals: its loop
    structure is the code's, but which of two nearly equal averages wins can
    differ from the code's double arithmetic; see [Binary64] below. *)
Definition estimateGridOffset (signal : list Q) (period : Z) : Z :=
  if ((period =? 0) || (period <? 2))%Z then 0%Z
  else
    let normalizer := offset_normalizer signal in
    let '(bestOffset, _) :=
      fold_left
        (fun '(bestOffset, bestScore) offset =>
           let score :=
             offset_score signal normalizer (Z.to_nat period) offset in
           if score_gt score bestScore
           then (Z.of_nat offset, score)
           else (bestOffset, bestScore))
        (seq 0 (Z.to_nat period))
        (0%Z, None) in
    bestOffset.

Definition clampValue (value min max : Z) : Z :=
  if (value <? min)%Z then min
  else if (value >? max)%Z then max
  else value.

End SignalProcessingUtils.

(* ================================================================== *)
(** ** [estimateGridOffset] in IEEE 754 binary64

    The same function with every number a double: [*], [+], [/] and [>]
    are the kernel's binary64 operations (round to nearest, ties to even),
    as in JavaScript.  A [Float32Array] element is read as the double of
    the same value. *)

Module Binary64.

(** [a > b]; false as soon as one side is [NaN]. *)
Definition gt (a b : float) : bool := PrimFloat.ltb b a.

(** [a >= b]. *)
Definition ge (a b : float) : bool := PrimFloat.leb b a.

(** [ToBoolean] of a number: [0], [-0] and [NaN] are falsy. *)
Definition truthy (x : float) : bool :=
  negb (PrimFloat.eqb x PrimFloat.zero) && PrimFloat.eqb x x.

(** The loop counter [count], an integer below [2^53], as a number. *)
Definition of_count (count : nat) : float :=
  PrimFloat.of_uint63 (Uint63.of_Z (Z.of_nat count)).

(** [signal[i]]; the loop only reads inside the array. *)
Definition get (signal : list float) (i : nat) : float :=
  nth i signal PrimFloat.nan.

(** [if (value > maxValue) maxValue = value]. *)
Definition max_step (maxValue value : float) : float :=
  if gt value maxValue then value else maxValue.

(** [maxValue ? 1 / maxValue : 1], [maxValue] starting at [-Infinity]. *)
Definition offset_normalizer (signal : list float) : float :=
  let maxValue := fold_left max_step signal PrimFloat.neg_infinity in
  if truthy maxValue then PrimFloat.div PrimFloat.one maxValue
  else PrimFloat.one.

(** [for (i = offset; i < length; i += period) { sum += signal[i] *
    normalizer; count++ }], with one unit of [fuel] per iteration. *)
Fixpoint sample_loop (fuel : nat) (signal : list float) (normalizer : float)
         (period i : nat) (sum : float) (count : nat) : float * nat :=
  match fuel with
  | O => (sum, count)
  | S fuel' =>
      if (i <? length signal)%nat
      then sample_loop fuel' signal normalizer period (i + period)
             (PrimFloat.add sum (PrimFloat.mul (get signal i) normalizer))
             (S count)
      else (sum, count)
  end.

(** [count ? sum / count : -Infinity]. *)
Definition offset_score (signal : list float) (normalizer : float)
           (period offset : nat) : float :=
  let '(sum, count) :=
    sample_loop (length signal) signal normalizer period offset
                PrimFloat.zero 0%nat in
  match count with
  | O => PrimFloat.neg_infinity
  | _ => PrimFloat.div sum (of_count count)
  end.

Definition estimateGridOffset (signal : list float) (period : Z) : Z :=
  if ((period =? 0) || (period <? 2))%Z then 0%Z
  else
    let normalizer := offset_normalizer signal in
    let '(bestOffset, _) :=
      fold_left
        (fun '(bestOffset, bestScore) offset =>
           let score :=
             offset_score signal normalizer (Z.to_nat period) offset in
           if gt score bestScore
           then (Z.of_nat offset, score)
           else (bestOffset, bestScore))
        (seq 0 (Z.to_nat period))
        (0%Z, PrimFloat.neg_infinity) in
    bestOffset.

End Binary64.

(* ================================================================== *)
(** ** What both implementations receive and return *)

(** A decoded image: its natural size, and what the 2D canvas hands back
    from [drawImage(image, 0, 0, w, h)] followed by
    [getImageData(0, 0, w, h).data]: the RGBA bytes of the scaled copy,
    row-major.  Decoding and scaling are the browser's. *)
Record LoadedImage : Type := mkImage {
  img_width : Z;
  img_height : Z;
  img_render : nat -> nat -> list Z
}.

(** A manual point.  Coordinates are exact rationals: the rounding of the
    spacings and the overflow of a span to [Infinity] are outside this
    model, which is only evaluated at small integer coordinates, where
    every operation of the manual fallback is exact in binary64. *)
Record Point : Type := mkPoint { px : Q; py : Q }.

Record GridDetectionResult : Type := mkResult {
  gridSize : JS.jsnum;
  xOffset : JS.jsnum;
  yOffset : JS.jsnum
}.

(** A call either returns a result or throws an [Error] with a message. *)
Inductive Outcome : Type :=
| Returned (result : GridDetectionResult)
| Thrown (message : string).

Definition insufficient_signal : string :=
  "Grid detection failed; insufficient periodic signal.".

(** [Math.min(...values)] and [Math.max(...values)] on a spread array; the
    callers spread at least two values ([Infinity] and [-Infinity] of the
    empty spread are not represented). *)
Definition math_min (values : list Q) : Q :=
  match values with
  | [] => 0
  | v :: rest => fold_left Qmin rest v
  end.

Definition math_max (values : list Q) : Q :=
  match values with
  | [] => 0
  | v :: rest => fold_left Qmax rest v
  end.

(** [Math.min(1, maximumDimension / Math.max(width, height))]; a zero
    divisor gives [Infinity], so the minimum is [1]. *)
Definition scale_for (maximumDimension width height : Z) : Q :=
  let largest := Z.max width height in
  if (largest =? 0)%Z then 1
  else Qmin 1 (inject_Z maximumDimension / inject_Z largest).

(** [Math.max(1, Math.round(size * scale))]. *)
Definition scaled_size (size : Z) (scale : Q) : nat :=
  Z.to_nat (Z.max 1 (JS.round (inject_Z size * scale))).

(** [period && Number.isFinite(period) && period >= minimum]. *)
Definition period_accepted (minimum : Q) (period : option Q) : bool :=
  match period with
  | Some p => negb (Qeq_bool p 0) && JS.geb p minimum
  | None => false
  end.

(* ================================================================== *)
(** ** grid-detection-service.js *)

Module GridDetectionService.
Import SignalProcessingUtils.

Definition MAX_PROCESSING_DIMENSION : Z := 1600.

Definition MIN_VALID_PERIOD : Q := 6.

Record Canvas : Type := mkCanvas {
  width : nat;
  height : nat;
  data : list Z
}.

Definition createScaledCanvas (image : LoadedImage) : Canvas * Q :=
  let scaleFactor :=
    scale_for MAX_PROCESSING_DIMENSION (img_width image) (img_height image) in
  let scaledWidth := scaled_size (img_width image) scaleFactor in
  let scaledHeight := scaled_size (img_height image) scaleFactor in
  ({| width := scaledWidth; height := scaledHeight;
      data := img_render image scaledWidth scaledHeight |},
   scaleFactor).

Definition channel (rgbaPixels : list Z) (index : nat) : Q :=
  inject_Z (nth index rgbaPixels 0%Z).

Definition extractGrayscaleData (canvas : Canvas) : list Q :=
  let rgbaPixels := data canvas in
  let pixelCount := (width canvas * height canvas)%nat in
  map (fun pixelIndex =>
         let rgbaIndex := (4 * pixelIndex)%nat in
         let red := channel rgbaPixels rgbaIndex in
         let green := channel rgbaPixels (rgbaIndex + 1) in
         let blue := channel rgbaPixels (rgbaIndex + 2) in
         (299 # 1000) * red + (587 # 1000) * green + (114 # 1000) * blue)
      (seq 0 pixelCount).

Definition sobelX : list Q := [-1; 0; 1; -2; 0; 2; -1; 0; 1]%Q.
Definition sobelY : list Q := [-1; -2; -1; 0; 0; 0; 1; 2; 1]%Q.

Section Sobel.
Variable hypot : Q -> Q -> Q.

(** The pixel read by the kernel cell [(kernelX, kernelY)] at [(x, y)],
    with coordinates clamped to the image. *)
Definition sample (grayscale : list Q) (width height x y : nat)
           (kernelX kernelY : Z) : Q :=
  let sampleY := clampValue (Z.of_nat y + kernelY) 0 (Z.of_nat height - 1) in
  let sampleX := clampValue (Z.of_nat x + kernelX) 0 (Z.of_nat width - 1) in
  JS.getZ grayscale (sampleY * Z.of_nat width + sampleX).

Definition gradient_at (grayscale : list Q) (width height x y : nat)
  : Q * Q * nat :=
  fold_left
    (fun acc kernelY =>
       fold_left
         (fun '(gradientX, gradientY, kernelIndex) kernelX =>
            let pixelValue :=
              sample grayscale width height x y kernelX kernelY in
            (gradientX + pixelValue * JS.get sobelX kernelIndex,
             gradientY + pixelValue * JS.get sobelY kernelIndex,
             S kernelIndex))
         [-1; 0; 1]%Z acc)
    [-1; 0; 1]%Z (0, 0, 0%nat).

(** [output[y * width + x]] is written once, in row-major order. *)
Definition computeSobelMagnitude (grayscale : list Q) (width height : nat)
  : list Q :=
  flat_map
    (fun y =>
       map (fun x =>
              let '(gradientX, gradientY, _) :=
                gradient_at grayscale width height x y in
              hypot gradientX gradientY)
           (seq 0 width))
    (seq 0 height).

End Sobel.

(** One row of the projection loop: every cell is added to its column
    and to the row sum, which is then stored at [projectionY[y]]. *)
Definition project_row (edgeMagnitude : list Q) (width : nat)
           (st : list Q * list Q) (y : nat) : list Q * list Q :=
  let '(projectionX, projectionY) := st in
  let '(projectionX, rowSum) :=
    fold_left
      (fun '(projectionX, rowSum) x =>
         let edgeValue := JS.get edgeMagnitude (y * width + x) in
         (JS.set projectionX x (JS.get projectionX x + edgeValue),
          rowSum + edgeValue))
      (seq 0 width) (projectionX, 0) in
  (projectionX, JS.set projectionY y rowSum).

Definition computeEdgeProjections (edgeMagnitude : list Q)
           (width height : nat) : list Q * list Q :=
  fold_left (project_row edgeMagnitude width) (seq 0 height)
            (JS.zeros width, JS.zeros height).

Definition processProjection (projection : list Q) (dimension : Z)
  : list Q :=
  let windowSize := Z.max 5 (dimension / 50) in
  let highPassed := applyHighPassFilter projection (inject_Z windowSize) in
  normalizeSignal highPassed.

Definition detectPeriodFromProjections (signalX signalY : list Q)
           (width height : Z) : option Q :=
  let minLagX := Z.max 8 (width / 200) in
  let minLagY := Z.max 8 (height / 200) in
  let maxLagX := Z.min (width / 2) 1024 in
  let maxLagY := Z.min (height / 2) 1024 in
  let autocorrX := computeAutocorrelation signalX minLagX maxLagX in
  let autocorrY := computeAutocorrelation signalY minLagY maxLagY in
  let periodX := findBestPeriodFromAutocorrelation autocorrX in
  let periodY := findBestPeriodFromAutocorrelation autocorrY in
  combinePeriodCandidates periodX periodY.

Definition buildDetectionResult (period : Q) (signalX signalY : list Q)
           (scaleFactor : Q) : GridDetectionResult :=
  let offsetX := estimateGridOffset signalX (JS.round period) in
  let offsetY := estimateGridOffset signalY (JS.round period) in
  let inverseScale := 1 / scaleFactor in
  {| gridSize := JS.Num (period * inverseScale);
     xOffset := JS.Num (inject_Z offsetX * inverseScale);
     yOffset := JS.Num (inject_Z offsetY * inverseScale) |}.

(** [detectFromManualPoints]; the two remainders are taken with no test on
    [gridSize]. *)
Definition detectFromManualPoints (points : list Point)
  : GridDetectionResult :=
  let xCoords := map px points in
  let yCoords := map py points in
  let minX := math_min xCoords in
  let maxX := math_max xCoords in
  let minY := math_min yCoords in
  let maxY := math_max yCoords in
  let avgSpacingX :=
    (maxX - minX) / inject_Z (Z.of_nat (length points) - 1) in
  let avgSpacingY :=
    (maxY - minY) / inject_Z (Z.of_nat (length points) - 1) in
  let gridSize := inject_Z (JS.round ((avgSpacingX + avgSpacingY) / 2)) in
  {| gridSize := JS.Num gridSize;
     xOffset := JS.rem minX gridSize;
     yOffset := JS.rem minY gridSize |}.

Section Pipeline.
Variable hypot : Q -> Q -> Q.

(** The first half of [detectGridFromImage]: the conditioned projections,
    the scaled canvas and the scale factor. *)
Definition conditioned (image : LoadedImage) : list Q * list Q * Canvas * Q :=
  let '(scaledCanvas, scaleFactor) := createScaledCanvas image in
  let grayscaleData := extractGrayscaleData scaledCanvas in
  let edgeMagnitude :=
    computeSobelMagnitude hypot grayscaleData
                          (width scaledCanvas) (height scaledCanvas) in
  let '(projectionX, projectionY) :=
    computeEdgeProjections edgeMagnitude
                           (width scaledCanvas) (height scaledCanvas) in
  let filteredX :=
    processProjection projectionX (Z.of_nat (width scaledCanvas)) in
  let filteredY :=
    processProjection projectionY (Z.of_nat (height scaledCanvas)) in
  (filteredX, filteredY, scaledCanvas, scaleFactor).

Definition detectGridFromImage (image : LoadedImage)
           (manualPoints : option (list Point)) : Outcome :=
  let '(filteredX, filteredY, scaledCanvas, scaleFactor) :=
    conditioned image in
  let detectedPeriod :=
    detectPeriodFromProjections filteredX filteredY
                                (Z.of_nat (width scaledCanvas))
                                (Z.of_nat (height scaledCanvas)) in
  if period_accepted MIN_VALID_PERIOD detectedPeriod
  then
    match detectedPeriod with
    | Some detectedPeriod =>
        Returned (buildDetectionResult detectedPeriod filteredX filteredY
                                       scaleFactor)
    | None => Thrown insufficient_signal   (* excluded by the test *)
    end
  else
    match manualPoints with
    | Some points =>
        if (2 <=? length points)%nat
        then Returned (detectFromManualPoints points)
        else Thrown insufficient_signal
    | None => Thrown insufficient_signal
    end.

End Pipeline.

End GridDetectionService.

(* ================================================================== *)
(** ** drop-handler.js: the detection code of the drop handler class *)

Module DropHandler.
Import SignalProcessingUtils.

Section Sobel.
Variable hypot : Q -> Q -> Q.

(** The local [clamp] arrow function of [sobelMagnitude]. *)
Definition clamp (value minimum maximum : Z) : Z :=
  if (value <? minimum)%Z then minimum
  else if (value >? maximum)%Z then maximum
  else value.

Definition kernelX : list Q := [-1; 0; 1; -2; 0; 2; -1; 0; 1]%Q.
Definition kernelY : list Q := [-1; -2; -1; 0; 0; 0; 1; 2; 1]%Q.

Definition sobelMagnitude (grayscale : list Q) (width height : nat)
  : list Q :=
  flat_map
    (fun y =>
       map (fun x =>
              let '(gradientX, gradientY, _) :=
                fold_left
                  (fun acc j =>
                     let sampleY :=
                       clamp (Z.of_nat y + j) 0 (Z.of_nat height - 1) in
                     fold_left
                       (fun '(gradientX, gradientY, kernelIndex) i =>
                          let sampleX :=
                            clamp (Z.of_nat x + i) 0 (Z.of_nat width - 1) in
                          let value :=
                            JS.getZ grayscale
                                    (sampleY * Z.of_nat width + sampleX) in
                          (gradientX + value * JS.get kernelX kernelIndex,
                           gradientY + value * JS.get kernelY kernelIndex,
                           S kernelIndex))
                       [-1; 0; 1]%Z acc)
                  [-1; 0; 1]%Z (0, 0, 0%nat) in
              hypot gradientX gradientY)
           (seq 0 width))
    (seq 0 height).
End Sobel.

Definition highPass1D (signal : list Q) (windowSize : Q) : list Q :=
  let length := List.length signal in
  let window := Z.max 3 (JS.to_int32 windowSize) in
  let halfWindow := (window / 2)%Z in
  let accumulator :=
    fold_left (fun accumulator i => accumulator + JS.get signal i)
              (seq 0 (Nat.min length (Z.to_nat window))) 0 in
  let '(_, output) :=
    fold_left
      (fun '(accumulator, output) i =>
         let leftIndex := (Z.of_nat i - halfWindow - 1)%Z in
         let rightIndex := (Z.of_nat i + halfWindow)%Z in
         let accumulator :=
           if ((rightIndex <? Z.of_nat length)
               && (Z.of_nat i + halfWindow <? Z.of_nat length))%Z
           then accumulator + JS.getZ signal rightIndex
           else accumulator in
         let accumulator :=
           if (leftIndex >=? 0)%Z
           then accumulator - JS.getZ signal leftIndex
           else accumulator in
         let spanLeft := Z.max 0 (Z.of_nat i - halfWindow) in
         let spanRight :=
           Z.min (Z.of_nat length - 1) (Z.of_nat i + halfWindow) in
         let span :=
           let s := (spanRight - spanLeft + 1)%Z in
           if (s =? 0)%Z then 1%Z else s in
         let average := accumulator / inject_Z span in
         (accumulator, output ++ [JS.get signal i - average]))
      (seq 0 length) (accumulator, []) in
  map (fun v => if JS.ltb v 0 then v * (2 # 10) else v) output.

Definition autocorr1D (signal : list Q) (minimumLag maximumLag : Z)
  : list AutocorrelationEntry :=
  let length := List.length signal in
  let mean :=
    fold_left (fun a b => a + b) signal 0 / inject_Z (Z.of_nat length) in
  let denominator :=
    fold_left (fun denominator s =>
                 let deviation := s - mean in
                 denominator + deviation * deviation)
              signal 0 in
  let denominator := JS.or_one denominator in
  map (fun lag =>
         let numerator :=
           fold_left
             (fun numerator i =>
                numerator + (JS.get signal i - mean)
                            * (JS.getZ signal (Z.of_nat i + lag) - mean))
             (seq 0 (Z.to_nat (Z.of_nat length - lag))) 0 in
         {| lag := lag; val := numerator / denominator |})
      (map (fun k => (minimumLag + Z.of_nat k)%Z)
           (seq 0 (Z.to_nat (maximumLag - minimumLag + 1)))).

Definition pickPeriodFromAutocorr
           (autocorrelation : list AutocorrelationEntry)
  : option PeriodCandidate :=
  match autocorrelation with
  | [] => None
  | _ =>
      let peaks :=
        fold_left
          (fun peaks i =>
             if JS.ltb (val (entry_at autocorrelation (i - 1)))
                       (val (entry_at autocorrelation i))
                && JS.geb (val (entry_at autocorrelation i))
                          (val (entry_at autocorrelation (i + 1)))
             then peaks ++ [entry_at autocorrelation i]
             else peaks)
          (seq 1 (length autocorrelation - 2)) [] in
      let peaks := JS.sort (fun a b => val b - val a) peaks in
      match peaks with
      | [] => None
      | _ =>
          let topPeaks :=
            JS.sort (fun a b => inject_Z (lag a - lag b)) (firstn 5 peaks) in
          match topPeaks with
          | best :: _ => Some {| value := lag best; score := val best |}
          | [] => None   (* not reached *)
          end
      end
  end.

(** [for (i = shift; i < length; i += period) { sum += normalized[i];
    count++ }], with one unit of [fuel] per iteration. *)
Fixpoint shift_loop (fuel : nat) (normalized : list Q) (length period i : nat)
         (sum : Q) (count : nat) : Q * nat :=
  match fuel with
  | O => (sum, count)
  | S fuel' =>
      if (i <? length)%nat
      then shift_loop fuel' normalized length period (i + period)
                      (sum + JS.get normalized i) (S count)
      else (sum, count)
  end.

Definition estimateOffsetFromProjection (signal : list Q) (period : Z) : Z :=
  if ((period =? 0) || (period <? 2))%Z then 0%Z
  else
    let length := List.length signal in
    let normalize (array : list Q) : list Q :=
      let max := fold_left JS.max_step array None in
      let inv :=
        match max with
        | Some max => if Qeq_bool max 0 then 1 else 1 / max
        | None => 0
        end in
      map (fun v => v * inv) array in
    let normalized := normalize signal in
    let '(bestShift, _) :=
      fold_left
        (fun '(bestShift, bestScore) shift =>
           let '(sum, count) :=
             shift_loop length normalized length (Z.to_nat period) shift
                        0 0%nat in
           let score :=
             match count with
             | O => None
             | _ => Some (sum / inject_Z (Z.of_nat count))
             end in
           if score_gt score bestScore
           then (Z.of_nat shift, score)
           else (bestShift, bestScore))
        (seq 0 (Z.to_nat period))
        (0%Z, None) in
    bestShift.

Section Pipeline.
Variable hypot : Q -> Q -> Q.

(** The grayscale loop runs over the bytes, four at a time, and stores
    into a [Float32Array] of [width * height] cells. *)
Definition grayscale_of (pixelData : list Z) (width height : nat)
  : list Q :=
  fold_left
    (fun grayscale pixelIndex =>
       let index := (4 * pixelIndex)%nat in
       let red := inject_Z (nth index pixelData 0%Z) in
       let green := inject_Z (nth (index + 1) pixelData 0%Z) in
       let blue := inject_Z (nth (index + 2) pixelData 0%Z) in
       JS.set grayscale pixelIndex
              ((299 # 1000) * red + (587 # 1000) * green
               + (114 # 1000) * blue))
    (seq 0 ((length pixelData + 3) / 4))
    (JS.zeros (width * height)).

Definition projections_of (magnitude : list Q) (width height : nat)
  : list Q * list Q :=
  fold_left
    (fun '(projectionX, projectionY) y =>
       let '(projectionX, rowSum) :=
         fold_left
           (fun '(projectionX, rowSum) x =>
              let value := JS.get magnitude (y * width + x) in
              (JS.set projectionX x (JS.get projectionX x + value),
               rowSum + value))
           (seq 0 width) (projectionX, 0) in
       (projectionX, JS.set projectionY y rowSum))
    (seq 0 height)
    (JS.zeros width, JS.zeros height).

(** The local [normalize] arrow function of [detectGridFromImage]. *)
Definition normalize (signal : list Q) : list Q :=
  let maxValue := fold_left JS.max_step signal None in
  let minValue := fold_left JS.min_step signal None in
  match maxValue, minValue with
  | Some maxValue, Some minValue =>
      let range := JS.or_one (maxValue - minValue) in
      map (fun s => (s - minValue) / range) signal
  | _, _ => []
  end.

Definition detectGridFromImage (image : LoadedImage)
           (manualPoints : option (list Point)) : Outcome :=
  let maximumDimension := 1600%Z in
  let scale :=
    scale_for maximumDimension (img_width image) (img_height image) in
  let width := scaled_size (img_width image) scale in
  let height := scaled_size (img_height image) scale in
  let pixelData := img_render image width height in
  let grayscale := grayscale_of pixelData width height in
  let magnitude := sobelMagnitude hypot grayscale width height in
  let '(projectionX, projectionY) :=
    projections_of magnitude width height in
  let highPassX :=
    highPass1D projectionX
               (inject_Z (Z.max 5 (Z.of_nat width / 50))) in
  let highPassY :=
    highPass1D projectionY
               (inject_Z (Z.max 5 (Z.of_nat height / 50))) in
  let normalizedX := normalize highPassX in
  let normalizedY := normalize highPassY in
  let minimumLagX := Z.max 8 (Z.of_nat width / 200) in
  let minimumLagY := Z.max 8 (Z.of_nat height / 200) in
  let maximumLagX := Z.min (Z.of_nat width / 2) 1024 in
  let maximumLagY := Z.min (Z.of_nat height / 2) 1024 in
  let autocorrelationX := autocorr1D normalizedX minimumLagX maximumLagX in
  let autocorrelationY := autocorr1D normalizedY minimumLagY maximumLagY in
  let periodCandidateX := pickPeriodFromAutocorr autocorrelationX in
  let periodCandidateY := pickPeriodFromAutocorr autocorrelationY in
  let period :=
    match periodCandidateX, periodCandidateY with
    | Some periodCandidateX, Some periodCandidateY =>
        if Qle_bool (Qabs (inject_Z (value periodCandidateX
                                     - value periodCandidateY))) 2
        then Some (inject_Z (value periodCandidateX
                             + value periodCandidateY) / 2)
        else if JS.geb (score periodCandidateX) (score periodCandidateY)
             then Some (inject_Z (value periodCandidateX))
             else Some (inject_Z (value periodCandidateY))
    | Some periodCandidateX, None =>
        Some (inject_Z (value periodCandidateX))
    | None, Some periodCandidateY =>
        Some (inject_Z (value periodCandidateY))
    | None, None => None
    end in
  if period_accepted 6 period
  then
    match period with
    | Some period =>
        let offsetX :=
          estimateOffsetFromProjection normalizedX (JS.round period) in
        let offsetY :=
          estimateOffsetFromProjection normalizedY (JS.round period) in
        let inverseScale := 1 / scale in
        Returned {| gridSize := JS.Num (period * inverseScale);
                    xOffset := JS.Num (inject_Z offsetX * inverseScale);
                    yOffset := JS.Num (inject_Z offsetY * inverseScale) |}
    | None => Thrown insufficient_signal   (* excluded by the test *)
    end
  else
    match manualPoints with
    | Some manualPoints =>
        if (2 <=? length manualPoints)%nat
        then
          let xCoordinates := map px manualPoints in
          let yCoordinates := map py manualPoints in
          let minX := math_min xCoordinates in
          let maxX := math_max xCoordinates in
          let minY := math_min yCoordinates in
          let maxY := math_max yCoordinates in
          let widthSpan := maxX - minX in
          let heightSpan := maxY - minY in
          let averageSpacingX :=
            widthSpan / inject_Z (Z.of_nat (length manualPoints) - 1) in
          let averageSpacingY :=
            heightSpan / inject_Z (Z.of_nat (length manualPoints) - 1) in
          let tileSize :=
            inject_Z (JS.round ((averageSpacingX + averageSpacingY) / 2)) in
          Returned {| gridSize := JS.Num tileSize;
                      xOffset := JS.rem minX tileSize;
                      yOffset := JS.rem minY tileSize |}
        else Thrown insufficient_signal
    | None => Thrown insufficient_signal
    end.

End Pipeline.

End DropHandler.

(* ================================================================== *)
(** ** The callers of the detection, and the busy counters *)

Module Callers.









(** [startBusy]: [Math.max(0, count || 0) + 1]. *)
Definition startBusy (busyOperationCount : Z) : Z :=
  (Z.max 0 (if (busyOperationCount =? 0)%Z then 0 else busyOperationCount)
   + 1)%Z.

(** [endBusy]: [Math.max(0, (count || 1) - 1)]. *)
Definition endBusy (busyOperationCount : Z) : Z :=
  Z.max 0 ((if (busyOperationCount =? 0)%Z then 1 else busyOperationCount)
           - 1).

(** [showProgressIndicator]: [Math.max(0, count) + 1]. *)
Definition showProgressIndicator (pendingOperationCount : Z) : Z :=
  (Z.max 0 pendingOperationCount + 1)%Z.

(** [hideProgressIndicator]: [Math.max(0, count - 1)]. *)
Definition hideProgressIndicator (pendingOperationCount : Z) : Z :=
  Z.max 0 (pendingOperationCount - 1).

End Callers.

Import SignalProcessingUtils.

(* ================================================================== *)
(** ** The claimed high-pass filter, written from its description *)

Module HighPassSpec.

(** Arithmetic mean of [signal] over the indices [lo .. hi]. *)
Definition window_mean (signal : list Q) (lo hi : nat) : Q :=
  fold_left Qplus (firstn (hi - lo + 1) (skipn lo signal)) 0
  / inject_Z (Z.of_nat (hi - lo + 1)).

(** The sample minus the mean of the centred window clipped to the signal,
    negative differences scaled by [0.2]. *)
Definition centered_highpass_at (signal : list Q) (w : Q) (i : nat) : Q :=
  let W := Z.max 3 (Qfloor w) in
  let h := Z.to_nat (W / 2) in
  let lo := (i - h)%nat in
  let hi := Nat.min (length signal - 1) (i + h) in
  let d := JS.get signal i - window_mean signal lo hi in
  if JS.ltb d 0 then d * (2 # 10) else d.

End HighPassSpec.

(* ================================================================== *)
(** ** A concrete [Math.hypot] for closed instances *)

(** A rational approximation of [sqrt (x^2 + y^2)] from below, to within
    [2^-16] of the reduced fraction's root, in lowest terms. *)
Definition hypot_isqrt (x y : Q) : Q :=
  let q := Qred (x * x + y * y) in
  Qred (Z.sqrt (Qnum q * Zpos (Qden q) * 4 ^ 16) # (Qden q * 2 ^ 16)).

(* ================================================================== *)
(** ** Vocabulary of the statements and the inputs of their instances *)

(** Order by a key, as the stable sort leaves its output. *)
Definition key_le {A} (key : A -> Q) (a b : A) : Prop := key a <= key b.

(** The signal of length 100 with a single spike at index 50. *)
Definition spike_at_50 : list Q :=
  map (fun i => if (i =? 50)%nat then 1 else 0) (seq 0 100).

(** |x.value - y.value| as the combiner computes it. *)
Definition value_gap (x y : PeriodCandidate) : Q :=
  Qabs (inject_Z (value x - value y)).

(** Lags grow along the curve, as in every curve that
    [computeAutocorrelation] builds. *)
Definition lags_increasing (ac : list AutocorrelationEntry) : Prop :=
  forall i j, (i < j < length ac)%nat ->
              (lag (entry_at ac i) < lag (entry_at ac j))%Z.

(** A curve over the lags 8 .. 90 whose value is [low] at lag 10, [9/10]
    at lags 40 and 80, and 0 elsewhere. *)
Definition three_spike_curve (low : Q) : list AutocorrelationEntry :=
  map (fun k =>
         mkEntry (8 + Z.of_nat k)
                 (if (k =? 2)%nat then low
                  else if ((k =? 32) || (k =? 72))%nat then 9 # 10
                  else 0))
      (seq 0 83).

(** A curve over the lags 8 .. 90 with peaks (40, 0.9), (60, 0.5) and
    (80, 0.9). *)
Definition harmonic_curve : list AutocorrelationEntry :=
  map (fun k =>
         mkEntry (8 + Z.of_nat k)
                 (if (k =? 52)%nat then 5 # 10
                  else if ((k =? 32) || (k =? 72))%nat then 9 # 10
                  else 0))
      (seq 0 83).

(** The number of positions [i, i + p, i + 2p, ...] below [n]. *)
Definition remaining (n p i : nat) : nat :=
  if (i <? n)%nat then S ((n - 1 - i) / p) else 0%nat.

(** The positions the sampling loop visits from [i] on. *)
Definition positions (n p i : nat) : list nat :=
  map (fun k => (i + k * p)%nat) (seq 0 (remaining n p i)).

(** The average of the normalised signal over the positions
    [o, o + p, o + 2p, ...] in exact arithmetic; [None] when there is no
    such position. *)
Definition sampled_average (signal : list Q) (p o : nat) : option Q :=
  if (o <? length signal)%nat
  then Some (fold_left
               (fun acc j => acc + JS.get signal j * offset_normalizer signal)
               (positions (length signal) p o) 0
             / inject_Z (Z.of_nat (length (positions (length signal) p o))))
  else None.

(** Scores are ordered with [None] ([-Infinity]) below every number. *)
Definition score_lt (a b : option Q) : Prop :=
  match a, b with
  | Some x, Some y => x < y
  | None, Some _ => True
  | _, None => False
  end.

(** One round of the search loop over the offsets. *)
Definition offset_step (score : nat -> option Q)
  : Z * option Q -> nat -> Z * option Q :=
  fun '(bestOffset, bestScore) offset =>
    if score_gt (score offset) bestScore
    then (Z.of_nat offset, score offset)
    else (bestOffset, bestScore).

(** The average the code computes for one offset, every product, sum and
    quotient rounded to binary64: over the positions [o, o + p, ...] in
    increasing order, [-Infinity] when there is none. *)
Definition computed_average (signal : list float) (p o : nat) : float :=
  if (o <? length signal)%nat
  then PrimFloat.div
         (fold_left
            (fun acc j =>
               PrimFloat.add acc
                 (PrimFloat.mul (Binary64.get signal j)
                                (Binary64.offset_normalizer signal)))
            (positions (length signal) p o) PrimFloat.zero)
         (Binary64.of_count (length (positions (length signal) p o)))
  else PrimFloat.neg_infinity.

(** One round of the binary64 search loop over the offsets. *)
Definition offset_step64 (score : nat -> float)
  : Z * float -> nat -> Z * float :=
  fun '(bestOffset, bestScore) offset =>
    if Binary64.gt (score offset) bestScore
    then (Z.of_nat offset, score offset)
    else (bestOffset, bestScore).



(** The place of a binary64 value on the number line: its class, then its
    exponent, then its mantissa; [NaN] has none. *)
Definition rank (x : spec_float) : option (Z * Z * Z) :=
  match x with
  | S754_nan => None
  | S754_infinity true => Some (-2, 0, 0)%Z
  | S754_infinity false => Some (2, 0, 0)%Z
  | S754_zero _ => Some (0, 0, 0)%Z
  | S754_finite true m e => Some (-1, - e, - Zpos m)%Z
  | S754_finite false m e => Some (1, e, Zpos m)%Z
  end.

Definition rank_lt (a b : Z * Z * Z) : Prop :=
  let '(a1, a2, a3) := a in
  let '(b1, b2, b3) := b in
  (a1 < b1 \/ (a1 = b1 /\ (a2 < b2 \/ (a2 = b2 /\ a3 < b3))))%Z.

(** [x < y] and [x <= y] on values that are not [NaN]. *)
Definition below (x y : spec_float) : Prop :=
  match rank x, rank y with
  | Some a, Some b => rank_lt a b
  | _, _ => False
  end.

Definition not_above (x y : spec_float) : Prop :=
  match rank x, rank y with
  | Some a, Some b => rank_lt a b \/ a = b
  | _, _ => False
  end.

(** Spikes every ten samples, forty samples long. *)
Definition comb_signal : list Q :=
  map (fun i => if (i mod 10 =? 0)%nat then 1 else 0) (seq 0 40).

(** A 20 x 20 image in one colour. *)
Definition flat_image : LoadedImage :=
  {| img_width := 20; img_height := 20;
     img_render := fun w h => repeat 200%Z (4 * w * h) |}.

(** Every sample is zero. *)
Definition all_zero (l : list Q) : Prop := Forall (fun v => v == 0) l.

(** Every pixel of the canvas has the colour [(red, green, blue)]. *)
Definition uniform_colour (image : LoadedImage) (red green blue : Z) : Prop :=
  forall w h k, (k < w * h)%nat ->
    nth (4 * k) (img_render image w h) 0%Z = red
    /\ nth (4 * k + 1) (img_render image w h) 0%Z = green
    /\ nth (4 * k + 2) (img_render image w h) 0%Z = blue.

(** [0.299 R + 0.587 G + 0.114 B]. *)
Definition luminance (red green blue : Z) : Q :=
  (299 # 1000) * inject_Z red + (587 # 1000) * inject_Z green
  + (114 # 1000) * inject_Z blue.


(** The sum of column [x] of a [width]-wide grid, rows added top to
    bottom. *)
Definition column_sum (edgeMagnitude : list Q) (width height x : nat) : Q :=
  fold_left (fun acc y => acc + JS.get edgeMagnitude (y * width + x))
            (seq 0 height) 0.

(** The sum of row [y], cells added left to right. *)
Definition row_sum (edgeMagnitude : list Q) (width y : nat) : Q :=
  fold_left (fun acc x => acc + JS.get edgeMagnitude (y * width + x))
            (seq 0 width) 0.

(** Both offsets are numbers inside one grid cell. *)
Definition inside_cell (r : GridDetectionResult) : Prop :=
  exists g x y,
    r = {| gridSize := JS.Num g; xOffset := JS.Num x; yOffset := JS.Num y |}
    /\ 0 <= x /\ x < g /\ 0 <= y /\ y < g.


(** [n] applications of [f]. *)
Fixpoint repeat_op (f : Z -> Z) (n : nat) (c : Z) : Z :=
  match n with
  | O => c
  | S n' => f (repeat_op f n' c)
  end.

(* ================================================================== *)
(** * Properties *)

(** ** Comparisons *)

Lemma ltb_true (a b : Q) : JS.ltb a b = true <-> a < b.
Proof.
  unfold JS.ltb. rewrite negb_true_iff.
  destruct (Qle_bool b a) eqn:E.
  - apply Qle_bool_iff in E. split; [discriminate | intro H; exfalso; lra].
  - split; [intros _ | reflexivity].
    destruct (Qlt_le_dec a b) as [H | H]; [exact H |].
    apply Qle_bool_iff in H. congruence.
Qed.

Lemma ltb_false (a b : Q) : JS.ltb a b = false <-> b <= a.
Proof.
  destruct (JS.ltb a b) eqn:E.
  - apply ltb_true in E. split; [discriminate | intro; exfalso; lra].
  - split; [intros _ | reflexivity].
    destruct (Qlt_le_dec a b) as [H | H]; [| exact H].
    apply ltb_true in H. congruence.
Qed.

Lemma geb_true (a b : Q) : JS.geb a b = true <-> b <= a.
Proof. unfold JS.geb. apply Qle_bool_iff. Qed.

Lemma geb_false (a b : Q) : JS.geb a b = false <-> a < b.
Proof.
  unfold JS.geb. destruct (Qle_bool b a) eqn:E.
  - apply Qle_bool_iff in E. split; [discriminate | intro; exfalso; lra].
  - split; [intros _ | reflexivity].
    destruct (Qlt_le_dec a b) as [H | H]; [exact H |].
    apply Qle_bool_iff in H. congruence.
Qed.

Lemma trunc_inject_Z (n : Z) : JS.trunc (inject_Z n) = n.
Proof. unfold JS.trunc. simpl. apply Z.quot_1_r. Qed.

Lemma to_int32_small (n : Z) :
  (- 2 ^ 31 <= n < 2 ^ 31)%Z -> JS.to_int32 (inject_Z n) = n.
Proof.
  intros H. unfold JS.to_int32. rewrite trunc_inject_Z.
  rewrite Z.mod_small; lia.
Qed.

(** ** Loops as folds *)

Lemma nth_map_seq {A} (f : nat -> A) (n i : nat) (d : A) :
  (i < n)%nat -> nth i (map f (seq 0 n)) d = f i.
Proof.
  intros H.
  rewrite (nth_indep _ d (f 0%nat)) by (rewrite length_map, length_seq; lia).
  rewrite map_nth, seq_nth by lia. reflexivity.
Qed.

Lemma fold_left_ext {A B} (f g : A -> B -> A) (l : list B) (a : A) :
  (forall s x, f s x = g s x) -> fold_left f l a = fold_left g l a.
Proof.
  intros H. revert a. induction l as [| x l IH]; intros a; simpl.
  - reflexivity.
  - rewrite H. apply IH.
Qed.

(* ================================================================== *)
(** ** The high-pass filter *)

(** The drop handler's [highPass1D] is the same code as
    [applyHighPassFilter]. *)
Lemma highPass1D_eq (signal : list Q) (windowSize : Q) :
  DropHandler.highPass1D signal windowSize = applyHighPassFilter signal windowSize.
Proof.
  unfold DropHandler.highPass1D, applyHighPassFilter, sliding_highpass,
    effective_window.
  rewrite (fold_left_ext _
             (highpass_step signal (Z.max 3 (JS.to_int32 windowSize) / 2))).
  - reflexivity.
  - intros [accumulator output] i. reflexivity.
Qed.

(** C1 (evaluation at the failing input).  On the constant signal
    [1, 1, 1] with window size 3 the window mean is 1 at every index, so the
    claimed output is 0 everywhere; [applyHighPassFilter] and [highPass1D]
    return [-0.2, -2/15, -0.2], because the running sum starts with the first
    [effectiveWindow] samples and the loop then adds [signal[i + halfWindow]]
    again. *)
Theorem applyHighPassFilter_constant_signal :
  applyHighPassFilter [1; 1; 1] 3 = [-4 # 20; -4 # 30; -4 # 20]
  /\ DropHandler.highPass1D [1; 1; 1] 3 = [-4 # 20; -4 # 30; -4 # 20]
  /\ map (HighPassSpec.centered_highpass_at [1; 1; 1] 3) [0; 1; 2]%nat
     = [0 # 2; 0 # 3; 0 # 2]
  /\ ~ JS.get (applyHighPassFilter [1; 1; 1] 3) 0
       == HighPassSpec.centered_highpass_at [1; 1; 1] 3 0.
Proof.
  repeat split; try (vm_compute; reflexivity).
  vm_compute. discriminate.
Qed.

(** C7 (counterexample).  For a projection of dimension 100 the claimed
    window is [max(3, floor(100/50)) = 3], the window the pipeline runs the
    filter with is 5, and the conditioned signals differ: at index 48 the
    pipeline yields 0 where a window of 3 yields 1/11. *)
Lemma processProjection_window_at_100 :
  Z.max 3 (100 / 50) = 3%Z
  /\ effective_window (inject_Z (Z.max 5 (100 / 50))) = 5%Z
  /\ JS.get (GridDetectionService.processProjection spike_at_50 100) 48 == 0
  /\ JS.get (normalizeSignal (sliding_highpass spike_at_50 (Z.max 3 (100 / 50))))
            48 == 1 # 11.
Proof. repeat split; vm_compute; reflexivity. Qed.

(** C7 (amended).  For every axis projection of dimension [d], both
    implementations run the high-pass filter with the effective window
    [max(5, floor(d/50))]. *)
Theorem processProjection_window (projection : list Q) (d : Z) :
  (0 <= d < 2 ^ 31)%Z ->
  effective_window (inject_Z (Z.max 5 (d / 50))) = Z.max 5 (d / 50)
  /\ GridDetectionService.processProjection projection d
     = normalizeSignal (sliding_highpass projection (Z.max 5 (d / 50)))
  /\ DropHandler.highPass1D projection (inject_Z (Z.max 5 (d / 50)))
     = sliding_highpass projection (Z.max 5 (d / 50)).
Proof.
  intros Hd.
  assert (Hq : (0 <= d / 50 < 2 ^ 31)%Z).
  { split; [apply Z.div_pos; lia |].
    apply Z.div_lt_upper_bound; lia. }
  assert (Hw : effective_window (inject_Z (Z.max 5 (d / 50))) = Z.max 5 (d / 50)).
  { unfold effective_window. rewrite to_int32_small by lia. lia. }
  split; [exact Hw |].
  split.
  - unfold GridDetectionService.processProjection, applyHighPassFilter.
    rewrite Hw. reflexivity.
  - rewrite highPass1D_eq. unfold applyHighPassFilter. rewrite Hw. reflexivity.
Qed.

Lemma processProjection_window_witness :
  (0 <= 100 < 2 ^ 31)%Z
  /\ effective_window (inject_Z (Z.max 5 (100 / 50))) = Z.max 5 (100 / 50)
  /\ GridDetectionService.processProjection spike_at_50 100
     = normalizeSignal (sliding_highpass spike_at_50 (Z.max 5 (100 / 50)))
  /\ DropHandler.highPass1D spike_at_50 (inject_Z (Z.max 5 (100 / 50)))
     = sliding_highpass spike_at_50 (Z.max 5 (100 / 50)).
Proof.
  split; [lia |].
  apply (processProjection_window spike_at_50 100). lia.
Defined.

(* ================================================================== *)
(** ** The axis combiner *)

Lemma combine_close (x y : PeriodCandidate) :
  value_gap x y <= 2 ->
  combinePeriodCandidates (Some x) (Some y)
  = Some (inject_Z (value x + value y) / 2).
Proof.
  intros H. unfold combinePeriodCandidates.
  apply Qle_bool_iff in H. unfold value_gap in H. rewrite H. reflexivity.
Qed.

Lemma combine_far (x y : PeriodCandidate) :
  2 < value_gap x y ->
  combinePeriodCandidates (Some x) (Some y)
  = if JS.geb (score x) (score y) then Some (inject_Z (value x))
    else Some (inject_Z (value y)).
Proof.
  intros H. unfold combinePeriodCandidates.
  destruct (Qle_bool (Qabs (inject_Z (value x - value y))) 2) eqn:E.
  - apply Qle_bool_iff in E. unfold value_gap in H. exfalso. lra.
  - destruct (JS.geb (score x) (score y)); reflexivity.
Qed.

(** C5.  [combinePeriodCandidates]: both present and within 2 gives the
    average; both present and further apart gives the value of the candidate
    with the higher score; one present gives its value; none gives null.
    (50, 0.9) with (52, 0.7) gives 51, and (50, 0.9) with (80, 0.95)
    gives 80. *)
Theorem combinePeriodCandidates_cases :
  (forall x y, value_gap x y <= 2 ->
     combinePeriodCandidates (Some x) (Some y)
     = Some (inject_Z (value x + value y) / 2))
  /\ (forall x y, 2 < value_gap x y -> score y < score x ->
        combinePeriodCandidates (Some x) (Some y) = Some (inject_Z (value x)))
  /\ (forall x y, 2 < value_gap x y -> score x < score y ->
        combinePeriodCandidates (Some x) (Some y) = Some (inject_Z (value y)))
  /\ (forall x, combinePeriodCandidates (Some x) None
                = Some (inject_Z (value x)))
  /\ (forall y, combinePeriodCandidates None (Some y)
                = Some (inject_Z (value y)))
  /\ combinePeriodCandidates None None = None
  /\ (exists p,
        combinePeriodCandidates (Some (mkCandidate 50 (9 # 10)))
                                (Some (mkCandidate 52 (7 # 10))) = Some p
        /\ p == 51)
  /\ combinePeriodCandidates (Some (mkCandidate 50 (9 # 10)))
                             (Some (mkCandidate 80 (95 # 100)))
     = Some 80.
Proof.
  split; [exact combine_close |].
  split.
  { intros x y Hgap Hs. rewrite combine_far by exact Hgap.
    assert (E : JS.geb (score x) (score y) = true) by (apply geb_true; lra).
    rewrite E. reflexivity. }
  split.
  { intros x y Hgap Hs. rewrite combine_far by exact Hgap.
    assert (E : JS.geb (score x) (score y) = false) by (apply geb_false; lra).
    rewrite E. reflexivity. }
  repeat split; try reflexivity.
  eexists. split; [vm_compute; reflexivity | reflexivity].
Qed.

(** C10.  When both candidates are present, their values differ by more
    than 2 and their scores are equal, the X-axis value is returned. *)
Theorem combinePeriodCandidates_tie_prefers_x (x y : PeriodCandidate) :
  2 < value_gap x y ->
  score x == score y ->
  combinePeriodCandidates (Some x) (Some y) = Some (inject_Z (value x)).
Proof.
  intros Hgap Hs. rewrite combine_far by exact Hgap.
  assert (E : JS.geb (score x) (score y) = true) by (apply geb_true; lra).
  rewrite E. reflexivity.
Qed.

Lemma combinePeriodCandidates_tie_witness :
  2 < value_gap (mkCandidate 50 (9 # 10)) (mkCandidate 80 (9 # 10))
  /\ 9 # 10 == 9 # 10
  /\ combinePeriodCandidates (Some (mkCandidate 50 (9 # 10)))
                             (Some (mkCandidate 80 (9 # 10)))
     = Some (inject_Z 50).
Proof.
  assert (Hgap : 2 < value_gap (mkCandidate 50 (9 # 10)) (mkCandidate 80 (9 # 10)))
    by (vm_compute; reflexivity).
  split; [exact Hgap |].
  split; [reflexivity |].
  apply (combinePeriodCandidates_tie_prefers_x
           (mkCandidate 50 (9 # 10)) (mkCandidate 80 (9 # 10)) Hgap).
  reflexivity.
Defined.

Lemma in_skipn {A} (n : nat) (l : list A) (x : A) :
  In x (skipn n l) -> In x l.
Proof.
  intros H. rewrite <- (firstn_skipn n l). apply in_or_app. right. exact H.
Qed.

Lemma in_firstn {A} (n : nat) (l : list A) (x : A) :
  In x (firstn n l) -> In x l.
Proof.
  intros H. rewrite <- (firstn_skipn n l). apply in_or_app. left. exact H.
Qed.

(* ================================================================== *)
(** ** The stable sort *)

Section StableSort.
Context {A : Type}.
Variable cmp : A -> A -> Q.
Variable key : A -> Q.
Hypothesis cmp_key : forall a b, cmp a b == key a - key b.

Lemma sort_insert_perm (x : A) (l : list A) :
  Permutation (JS.sort_insert cmp x l) (x :: l).
Proof.
  induction l as [| y t IH]; simpl.
  - apply Permutation_refl.
  - destruct (JS.ltb 0 (cmp x y)).
    + eapply Permutation_trans; [apply perm_skip, IH | apply perm_swap].
    + apply Permutation_refl.
Qed.

Lemma sort_perm (l : list A) : Permutation (JS.sort cmp l) l.
Proof.
  induction l as [| x t IH]; simpl.
  - apply perm_nil.
  - eapply Permutation_trans; [apply sort_insert_perm |].
    apply perm_skip, IH.
Qed.

Lemma sort_insert_sorted (x : A) (l : list A) :
  StronglySorted (key_le key) l -> StronglySorted (key_le key) (JS.sort_insert cmp x l).
Proof.
  induction 1 as [| y t Hs IH Hy]; simpl.
  - constructor; [constructor | constructor].
  - destruct (JS.ltb 0 (cmp x y)) eqn:E.
    + apply ltb_true in E. rewrite cmp_key in E.
      constructor; [exact IH |].
      rewrite Forall_forall. intros z Hz.
      apply (Permutation_in _ (sort_insert_perm x t)) in Hz.
      destruct Hz as [<- | Hz].
      * unfold key_le. lra.
      * rewrite Forall_forall in Hy. apply Hy, Hz.
    + apply ltb_false in E. rewrite cmp_key in E.
      constructor; [constructor; assumption |].
      constructor; [unfold key_le; lra |].
      rewrite Forall_forall in *. intros z Hz.
      specialize (Hy z Hz). unfold key_le in *. lra.
Qed.

Lemma sort_sorted (l : list A) : StronglySorted (key_le key) (JS.sort cmp l).
Proof.
  induction l as [| x t IH]; simpl.
  - constructor.
  - apply sort_insert_sorted, IH.
Qed.

(** The head of the sorted array is an element of least key. *)
Lemma sort_head_least (l t : list A) (b : A) :
  JS.sort cmp l = b :: t ->
  In b l /\ forall a, In a l -> key b <= key a.
Proof.
  intros E. pose proof (sort_sorted l) as Hs. pose proof (sort_perm l) as Hp.
  rewrite E in Hs, Hp. split.
  - apply (Permutation_in _ Hp). left. reflexivity.
  - intros a Ha. apply (Permutation_in _ (Permutation_sym Hp)) in Ha.
    inversion Hs as [| ? ? _ Hall]; subst.
    destruct Ha as [<- | Ha]; [lra |].
    rewrite Forall_forall in Hall. apply Hall, Ha.
Qed.

(** An element that is least among [l] is inserted in front. *)
Lemma sort_insert_front (x : A) (l : list A) :
  (forall y, In y l -> key x <= key y) ->
  JS.sort_insert cmp x l = x :: l.
Proof.
  destruct l as [| y t]; intros H; simpl; [reflexivity |].
  assert (E : JS.ltb 0 (cmp x y) = false).
  { apply ltb_false. rewrite cmp_key. specialize (H y (or_introl eq_refl)). lra. }
  rewrite E. reflexivity.
Qed.

(** Whatever is cut off by [slice(0, n)] has a key at least as large as
    whatever is kept. *)
Lemma sorted_firstn_skipn (n : nat) (l : list A) :
  StronglySorted (key_le key) l ->
  forall a b, In a (firstn n l) -> In b (skipn n l) -> key a <= key b.
Proof.
  intros Hs. revert n. induction Hs as [| y t Hs IH Hy]; intros n a b Ha Hb.
  - destruct n; simpl in Ha; contradiction.
  - destruct n as [| n]; simpl in Ha, Hb; [contradiction |].
    destruct Ha as [<- | Ha].
    + rewrite Forall_forall in Hy. apply Hy.
      apply (in_skipn n t b Hb).
    + apply (IH n a b Ha Hb).
Qed.

End StableSort.

Lemma by_val_desc_key (a b : AutocorrelationEntry) :
  by_val_desc a b == (- val a) - (- val b).
Proof. unfold by_val_desc. ring. Qed.

Lemma by_lag_asc_key (a b : AutocorrelationEntry) :
  by_lag_asc a b == inject_Z (lag a) - inject_Z (lag b).
Proof.
  unfold by_lag_asc. unfold Z.sub.
  rewrite inject_Z_plus, inject_Z_opp. ring.
Qed.

(* ================================================================== *)
(** ** The period picker *)

Lemma fold_left_push {A} (P : nat -> bool) (f : nat -> A)
      (l : list nat) (acc : list A) :
  fold_left (fun peaks i => if P i then peaks ++ [f i] else peaks) l acc
  = acc ++ map f (filter P l).
Proof.
  revert acc. induction l as [| i l IH]; intros acc; simpl.
  - rewrite app_nil_r. reflexivity.
  - rewrite IH. destruct (P i); simpl; [| reflexivity].
    rewrite <- app_assoc. reflexivity.
Qed.

Lemma find_peaks_filter (ac : list AutocorrelationEntry) :
  find_peaks ac
  = map (entry_at ac) (filter (isPeak ac) (seq 1 (length ac - 2))).
Proof.
  unfold find_peaks.
  rewrite (fold_left_push (isPeak ac) (entry_at ac)). reflexivity.
Qed.

Lemma isPeak_true (ac : list AutocorrelationEntry) (i : nat) :
  isPeak ac i = true
  <-> val (entry_at ac (i - 1)) < val (entry_at ac i)
      /\ val (entry_at ac (i + 1)) <= val (entry_at ac i).
Proof.
  unfold isPeak. rewrite andb_true_iff, ltb_true, geb_true. reflexivity.
Qed.

(** The peaks are the interior entries that exceed their left neighbour and
    are not below their right neighbour. *)
Lemma in_find_peaks (ac : list AutocorrelationEntry) (e : AutocorrelationEntry) :
  In e (find_peaks ac)
  <-> exists i, (1 <= i)%nat /\ (i + 1 < length ac)%nat
                /\ e = entry_at ac i
                /\ val (entry_at ac (i - 1)) < val (entry_at ac i)
                /\ val (entry_at ac (i + 1)) <= val (entry_at ac i).
Proof.
  rewrite find_peaks_filter, in_map_iff. split.
  - intros (i & <- & Hi). apply filter_In in Hi. destruct Hi as [Hi Hp].
    apply in_seq in Hi. apply isPeak_true in Hp.
    exists i. repeat split; try lia; tauto.
  - intros (i & H1 & H2 & -> & Hl & Hr).
    exists i. split; [reflexivity |]. apply filter_In. split.
    + apply in_seq. lia.
    + apply isPeak_true. split; assumption.
Qed.

(** The picker in terms of the peak list. *)
Lemma findBest_unfold (ac : list AutocorrelationEntry) :
  findBestPeriodFromAutocorrelation ac
  = match find_peaks ac with
    | [] => None
    | _ :: _ =>
        match JS.sort by_lag_asc (firstn 5 (JS.sort by_val_desc (find_peaks ac)))
        with
        | bestPeak :: _ => Some {| value := lag bestPeak; score := val bestPeak |}
        | [] => None
        end
    end.
Proof.
  destruct ac as [| e ac]; [reflexivity |].
  unfold findBestPeriodFromAutocorrelation.
  destruct (find_peaks (e :: ac)); reflexivity.
Qed.

Lemma sort_length {A} (cmp : A -> A -> Q) (l : list A) :
  length (JS.sort cmp l) = length l.
Proof. apply Permutation_length, sort_perm. Qed.

(** With at least one peak the picker returns the head of the twice-sorted
    top peaks. *)
Lemma findBest_some (ac : list AutocorrelationEntry) :
  find_peaks ac <> [] ->
  exists best rest,
    JS.sort by_lag_asc (firstn 5 (JS.sort by_val_desc (find_peaks ac)))
    = best :: rest
    /\ findBestPeriodFromAutocorrelation ac
       = Some {| value := lag best; score := val best |}.
Proof.
  intros Hne. rewrite findBest_unfold.
  destruct (find_peaks ac) as [| p ps] eqn:Ep; [contradiction |].
  destruct (JS.sort by_lag_asc (firstn 5 (JS.sort by_val_desc (p :: ps))))
    as [| best rest] eqn:Es.
  - exfalso. apply (f_equal (@length _)) in Es.
    rewrite sort_length, length_firstn, sort_length in Es. simpl in Es. lia.
  - exists best, rest. split; reflexivity.
Qed.

Lemma findBest_none (ac : list AutocorrelationEntry) :
  findBestPeriodFromAutocorrelation ac = None <-> find_peaks ac = [].
Proof.
  split.
  - intros H. destruct (find_peaks ac) as [| p ps] eqn:Ep; [reflexivity |].
    destruct (findBest_some ac) as (b & r & _ & E); [congruence |].
    congruence.
  - intros H. rewrite findBest_unfold, H. reflexivity.
Qed.

(** What the picker returns: the kept peaks [top] are [min 5 n] of the [n]
    peaks, none weaker than a dropped one, and the result is a kept peak of
    least lag. *)
Lemma findBest_top5 (ac : list AutocorrelationEntry) (r : PeriodCandidate) :
  findBestPeriodFromAutocorrelation ac = Some r ->
  exists top dropped best,
    Permutation (top ++ dropped) (find_peaks ac)
    /\ length top = Nat.min 5 (length (find_peaks ac))
    /\ (forall a b, In a top -> In b dropped -> val b <= val a)
    /\ In best top
    /\ (forall a, In a top -> (lag best <= lag a)%Z)
    /\ value r = lag best
    /\ score r = val best.
Proof.
  intros Hr.
  destruct (findBest_some ac) as (best & rest & Es & E).
  { intros Hn. apply findBest_none in Hn. congruence. }
  rewrite E in Hr. injection Hr as <-.
  set (sorted := JS.sort by_val_desc (find_peaks ac)) in *.
  exists (firstn 5 sorted), (skipn 5 sorted), best.
  pose proof (sort_head_least by_lag_asc (fun e => inject_Z (lag e))
                              by_lag_asc_key _ _ _ Es) as [Hin Hleast].
  repeat split; try reflexivity.
  - rewrite firstn_skipn. apply sort_perm.
  - rewrite length_firstn. unfold sorted. rewrite sort_length. reflexivity.
  - intros a b Ha Hb.
    pose proof (sorted_firstn_skipn (fun e => - val e) 5 sorted
                  (sort_sorted by_val_desc _ by_val_desc_key _) a b Ha Hb) as H.
    simpl in H. lra.
  - exact Hin.
  - intros a Ha. specialize (Hleast a Ha). simpl in Hleast.
    rewrite <- Zle_Qle in Hleast. exact Hleast.
Qed.

(** The two pickers agree. *)
Lemma pickPeriodFromAutocorr_eq (ac : list AutocorrelationEntry) :
  DropHandler.pickPeriodFromAutocorr ac = findBestPeriodFromAutocorrelation ac.
Proof.
  rewrite findBest_unfold.
  destruct ac as [| e ac]; [reflexivity |].
  unfold DropHandler.pickPeriodFromAutocorr.
  change (fold_left _ (seq 1 (length (e :: ac) - 2)) [])
    with (find_peaks (e :: ac)).
  change (JS.sort (fun a b => val b - val a)) with (JS.sort by_val_desc).
  change (JS.sort (fun a b => inject_Z (lag a - lag b)))
    with (JS.sort by_lag_asc).
  destruct (find_peaks (e :: ac)) as [| p ps] eqn:Ep.
  - reflexivity.
  - destruct (JS.sort by_val_desc (p :: ps)) as [| q qs] eqn:Es.
    + apply (f_equal (@length _)) in Es. rewrite sort_length in Es.
      discriminate.
    + reflexivity.
Qed.

Lemma entry_at_map_seq (f : nat -> AutocorrelationEntry) (n i : nat) :
  (i < n)%nat -> entry_at (map f (seq 0 n)) i = f i.
Proof.
  intros H. unfold entry_at.
  rewrite (nth_indep _ dummy_entry (f 0%nat)) by (rewrite length_map, length_seq; lia).
  rewrite map_nth, seq_nth by lia. reflexivity.
Qed.

Lemma lags_increasing_map_seq (a : Z) (v : nat -> Q) (n : nat) :
  lags_increasing
    (map (fun k => mkEntry (a + Z.of_nat k) (v k)) (seq 0 n)).
Proof.
  intros i j H. rewrite length_map, length_seq in H.
  rewrite !entry_at_map_seq by lia. simpl. lia.
Qed.

Lemma filter_seq_head (P : nat -> bool) (n a j : nat) (rest : list nat) :
  filter P (seq a n) = j :: rest ->
  (a <= j)%nat /\ forall i, In i rest -> (j < i)%nat.
Proof.
  revert a. induction n as [| n IH]; intros a H; simpl in H; [discriminate |].
  destruct (P a).
  - injection H as <- <-. split; [lia |].
    intros i Hi. apply filter_In in Hi. destruct Hi as [Hi _].
    apply in_seq in Hi. lia.
  - destruct (IH (S a) H) as [H1 H2]. split; [lia | exact H2].
Qed.

(** On a curve with increasing lags, a peak of least lag is the first
    peak found. *)
Lemma first_peak (ac : list AutocorrelationEntry) (e : AutocorrelationEntry) :
  lags_increasing ac ->
  In e (find_peaks ac) ->
  (forall p, In p (find_peaks ac) -> (lag e <= lag p)%Z) ->
  exists rest, find_peaks ac = e :: rest.
Proof.
  intros Hinc He Hleast. rewrite find_peaks_filter in *.
  apply in_map_iff in He. destruct He as (i0 & <- & Hi0).
  destruct (filter (isPeak ac) (seq 1 (length ac - 2))) as [| j rest] eqn:Ef;
    [contradiction |].
  simpl. destruct Hi0 as [-> | Hi0]; [eexists; reflexivity |].
  exfalso.
  destruct (filter_seq_head _ _ _ _ _ Ef) as [_ Hlt].
  specialize (Hlt i0 Hi0).
  assert (Hin : In i0 (filter (isPeak ac) (seq 1 (length ac - 2))))
    by (rewrite Ef; right; exact Hi0).
  apply filter_In in Hin. destruct Hin as [Hin _]. apply in_seq in Hin.
  assert (Hlag : (lag (entry_at ac j) < lag (entry_at ac i0))%Z)
    by (apply Hinc; lia).
  specialize (Hleast (entry_at ac j) (or_introl eq_refl)). lia.
Qed.

(** On a curve with increasing lags, a peak that is both strongest and of
    least lag is the one returned. *)
Lemma findBest_first_strongest
      (ac : list AutocorrelationEntry) (e : AutocorrelationEntry) :
  lags_increasing ac ->
  In e (find_peaks ac) ->
  (forall p, In p (find_peaks ac) -> val p <= val e) ->
  (forall p, In p (find_peaks ac) -> (lag e <= lag p)%Z) ->
  findBestPeriodFromAutocorrelation ac
  = Some {| value := lag e; score := val e |}.
Proof.
  intros Hinc He Hval Hlag.
  destruct (first_peak ac e Hinc He Hlag) as [rest Hp].
  rewrite findBest_unfold, Hp. rewrite Hp in Hval, Hlag.
  assert (Hs : JS.sort by_val_desc (e :: rest)
               = e :: JS.sort by_val_desc rest).
  { change (JS.sort by_val_desc (e :: rest))
      with (JS.sort_insert by_val_desc e (JS.sort by_val_desc rest)).
    apply (sort_insert_front by_val_desc (fun x => - val x) by_val_desc_key).
    intros y Hy. apply (Permutation_in _ (sort_perm _ _)) in Hy.
    specialize (Hval y (or_intror Hy)). lra. }
  rewrite Hs.
  change (firstn 5 (e :: JS.sort by_val_desc rest))
    with (e :: firstn 4 (JS.sort by_val_desc rest)).
  change (JS.sort by_lag_asc (e :: firstn 4 (JS.sort by_val_desc rest)))
    with (JS.sort_insert by_lag_asc e
            (JS.sort by_lag_asc (firstn 4 (JS.sort by_val_desc rest)))).
  rewrite (sort_insert_front by_lag_asc (fun x => inject_Z (lag x))
                             by_lag_asc_key).
  - reflexivity.
  - intros y Hy. apply (Permutation_in _ (sort_perm _ _)) in Hy.
    apply in_firstn in Hy. apply (Permutation_in _ (sort_perm _ _)) in Hy.
    specialize (Hlag y (or_intror Hy)). rewrite <- Zle_Qle. exact Hlag.
Qed.

(** C4 (counterexample).  The curve has the equal-valued peaks (40, 0.9)
    and (80, 0.9) and no stronger peak, yet the picker returns lag 10: the
    weaker peak (10, 0.1) is among the five strongest and has the smallest
    lag. *)
Lemma findBestPeriod_weaker_peak_wins :
  find_peaks (three_spike_curve (1 # 10))
  = [mkEntry 10 (1 # 10); mkEntry 40 (9 # 10); mkEntry 80 (9 # 10)]
  /\ findBestPeriodFromAutocorrelation (three_spike_curve (1 # 10))
     = Some {| value := 10; score := 1 # 10 |}.
Proof. split; vm_compute; reflexivity. Qed.

(** C4 (amended).  The peaks are exactly the interior entries strictly above
    their left neighbour and not below their right neighbour; the picker
    returns null exactly when there is no peak, and otherwise the
    smallest-lag entry among the (at most) five strongest peaks, with its lag
    as value and its correlation as score.  On a curve with increasing lags
    that has equal-valued peaks at lags 40 and 80, no stronger peak and no
    peak at a lag below 40, it returns lag 40.  The drop handler's picker
    returns the same. *)
Theorem findBestPeriodFromAutocorrelation_spec (ac : list AutocorrelationEntry) :
  (forall e,
      In e (find_peaks ac)
      <-> exists i, (1 <= i)%nat /\ (i + 1 < length ac)%nat
                    /\ e = entry_at ac i
                    /\ val (entry_at ac (i - 1)) < val (entry_at ac i)
                    /\ val (entry_at ac (i + 1)) <= val (entry_at ac i))
  /\ (findBestPeriodFromAutocorrelation ac = None <-> find_peaks ac = [])
  /\ (forall r,
         findBestPeriodFromAutocorrelation ac = Some r ->
         exists top dropped best,
           Permutation (top ++ dropped) (find_peaks ac)
           /\ length top = Nat.min 5 (length (find_peaks ac))
           /\ (forall a b, In a top -> In b dropped -> val b <= val a)
           /\ In best top
           /\ (forall a, In a top -> (lag best <= lag a)%Z)
           /\ value r = lag best
           /\ score r = val best)
  /\ (lags_increasing ac ->
      forall e40 e80,
        In e40 (find_peaks ac) -> In e80 (find_peaks ac) ->
        lag e40 = 40%Z -> lag e80 = 80%Z -> val e40 == val e80 ->
        (forall p, In p (find_peaks ac) -> val p <= val e40) ->
        (forall p, In p (find_peaks ac) -> (40 <= lag p)%Z) ->
        findBestPeriodFromAutocorrelation ac
        = Some {| value := 40; score := val e40 |})
  /\ DropHandler.pickPeriodFromAutocorr ac
     = findBestPeriodFromAutocorrelation ac.
Proof.
  split; [exact (in_find_peaks ac) |].
  split; [exact (findBest_none ac) |].
  split; [exact (findBest_top5 ac) |].
  split; [| exact (pickPeriodFromAutocorr_eq ac)].
  intros Hinc e40 e80 H40 _ L40 _ _ Hval Hlag.
  rewrite <- L40.
  apply (findBest_first_strongest ac e40 Hinc H40 Hval).
  intros p Hp. rewrite L40. apply Hlag, Hp.
Qed.

Lemma findBestPeriod_fundamental_witness :
  find_peaks harmonic_curve
  = [mkEntry 40 (9 # 10); mkEntry 60 (5 # 10); mkEntry 80 (9 # 10)]
  /\ findBestPeriodFromAutocorrelation harmonic_curve
     = Some {| value := 40; score := 9 # 10 |}.
Proof.
  assert (Hp : find_peaks harmonic_curve
               = [mkEntry 40 (9 # 10); mkEntry 60 (5 # 10); mkEntry 80 (9 # 10)])
    by (vm_compute; reflexivity).
  split; [exact Hp |].
  apply (proj1 (proj2 (proj2 (proj2
           (findBestPeriodFromAutocorrelation_spec harmonic_curve))))
           (lags_increasing_map_seq 8 _ 83)
           (mkEntry 40 (9 # 10)) (mkEntry 80 (9 # 10)));
    rewrite ?Hp; simpl; try tauto; try reflexivity.
  - intros p [<- | [<- | [<- | []]]]; simpl; unfold Qle; simpl; lia.
  - intros p [<- | [<- | [<- | []]]]; simpl; lia.
Defined.

(* ================================================================== *)
(** ** The offset estimator *)

Lemma remaining_step (n p i : nat) :
  (0 < p)%nat -> (i < n)%nat -> remaining n p i = S (remaining n p (i + p)).
Proof.
  intros Hp Hi. unfold remaining.
  apply Nat.ltb_lt in Hi. rewrite Hi. apply Nat.ltb_lt in Hi.
  f_equal.
  destruct (i + p <? n)%nat eqn:E.
  - apply Nat.ltb_lt in E.
    replace (n - 1 - i)%nat with ((n - 1 - (i + p)) + 1 * p)%nat by lia.
    rewrite Nat.div_add by lia. lia.
  - apply Nat.ltb_ge in E. apply Nat.div_small. lia.
Qed.

Lemma remaining_le (n p i : nat) : (0 < p)%nat -> (remaining n p i <= n - i)%nat.
Proof.
  intros Hp. unfold remaining. destruct (i <? n)%nat eqn:E; [| lia].
  apply Nat.ltb_lt in E.
  assert ((n - 1 - i) / p <= n - 1 - i)%nat.
  { apply Nat.Div0.div_le_upper_bound. nia. }
  lia.
Qed.

Lemma positions_length (n p i : nat) :
  length (positions n p i) = remaining n p i.
Proof. unfold positions. rewrite length_map, length_seq. reflexivity. Qed.

Lemma positions_step (n p i : nat) :
  (0 < p)%nat -> (i < n)%nat -> positions n p i = i :: positions n p (i + p).
Proof.
  intros Hp Hi. unfold positions. rewrite (remaining_step n p i Hp Hi).
  simpl. f_equal; [lia |].
  rewrite <- seq_shift, map_map. apply map_ext. intros k. lia.
Qed.

Lemma positions_stop (n p i : nat) : (n <= i)%nat -> positions n p i = [].
Proof.
  intros H. unfold positions, remaining.
  apply Nat.ltb_ge in H. rewrite H. reflexivity.
Qed.

(** With the fuel [estimateGridOffset] gives it, the sampling loop ends by
    its own test [i < length]: it sums exactly the samples at [positions]. *)
Lemma sample_loop_closed (signal : list Q) (normalizer : Q) (p : nat) :
  (0 < p)%nat ->
  forall fuel i sum count,
    (remaining (length signal) p i <= fuel)%nat ->
    sample_loop fuel signal normalizer p i sum count
    = (fold_left (fun acc j => acc + JS.get signal j * normalizer)
                 (positions (length signal) p i) sum,
       (count + remaining (length signal) p i)%nat).
Proof.
  intros Hp. induction fuel as [| fuel IH]; intros i sum count Hf.
  - assert (E : remaining (length signal) p i = 0%nat) by lia.
    unfold positions. rewrite E. simpl. rewrite Nat.add_0_r. reflexivity.
  - simpl. destruct (i <? length signal)%nat eqn:E.
    + apply Nat.ltb_lt in E.
      rewrite (remaining_step _ p i Hp E) in Hf.
      rewrite IH by lia.
      rewrite (positions_step _ p i Hp E), (remaining_step _ p i Hp E).
      simpl. f_equal. lia.
    + apply Nat.ltb_ge in E. rewrite (positions_stop _ p i E).
      unfold remaining. apply Nat.ltb_ge in E. rewrite E.
      simpl. rewrite Nat.add_0_r. reflexivity.
Qed.

Lemma offset_score_average (signal : list Q) (p o : nat) :
  (0 < p)%nat ->
  offset_score signal (offset_normalizer signal) p o
  = sampled_average signal p o.
Proof.
  intros Hp. unfold offset_score, sampled_average.
  rewrite (sample_loop_closed signal _ p Hp).
  2:{ pose proof (remaining_le (length signal) p o Hp). lia. }
  rewrite positions_length. unfold remaining.
  destruct (o <? length signal)%nat; reflexivity.
Qed.

Lemma score_gt_true (s b : option Q) : score_gt s b = true <-> score_lt b s.
Proof.
  destruct s as [s |], b as [b |]; simpl; try tauto.
  - apply ltb_true.
  - split; [discriminate | contradiction].
  - split; [discriminate | contradiction].
Qed.

Lemma score_lt_irrefl (a : option Q) : ~ score_lt a a.
Proof. destruct a as [a |]; simpl; [lra | tauto]. Qed.

Lemma score_lt_trans (a b c : option Q) :
  score_lt a b -> score_lt b c -> score_lt a c.
Proof. destruct a, b, c; simpl; try tauto. lra. Qed.

Lemma score_le_lt_trans (a b c : option Q) :
  ~ score_lt b a -> score_lt b c -> score_lt a c.
Proof. destruct a, b, c; simpl; try tauto. lra. Qed.

(** After [k] rounds the loop holds the first offset of greatest score among
    [0 .. k-1]. *)
Lemma offset_search (score : nat -> option Q) (k : nat) :
  exists b,
    fold_left (offset_step score) (seq 0 k) (0%Z, None)
    = (Z.of_nat b, match k with O => None | S _ => score b end)
    /\ (b < Nat.max 1 k)%nat
    /\ (forall o, (o < k)%nat -> ~ score_lt (score b) (score o))
    /\ (forall o, (o < b)%nat -> score_lt (score o) (score b)).
Proof.
  induction k as [| k IH].
  - exists 0%nat. simpl.
    split; [reflexivity |]. split; [lia |]. split; intros o Ho; lia.
  - destruct IH as (b & Ef & Hb & Hmax & Hfirst).
    rewrite seq_S, fold_left_app, Ef. simpl.
    destruct k as [| k].
    + assert (b = 0%nat) by lia. subst b.
      exists 0%nat.
      assert (E : (if score_gt (score 0%nat) None
                   then (0%Z, score 0%nat) else (0%Z, None))
                  = (0%Z, score 0%nat)).
      { destruct (score 0%nat); reflexivity. }
      split; [exact E |]. split; [lia |]. split.
      * intros o Ho. replace o with 0%nat by lia. apply score_lt_irrefl.
      * intros o Ho. lia.
    + destruct (score_gt (score (S k)) (score b)) eqn:E.
      * apply score_gt_true in E. exists (S k).
        split; [reflexivity |]. split; [lia |]. split.
        -- intros o Ho Hlt.
           destruct (Nat.eq_dec o (S k)) as [-> | Hne];
             [exact (score_lt_irrefl _ Hlt) |].
           apply (Hmax o); [lia |].
           exact (score_lt_trans _ _ _ E Hlt).
        -- intros o Ho.
           apply (score_le_lt_trans _ (score b)); [apply Hmax; lia | exact E].
      * exists b.
        split; [reflexivity |]. split; [lia |]. split.
        -- intros o Ho Hlt.
           destruct (Nat.eq_dec o (S k)) as [-> | Hne].
           ++ apply score_gt_true in Hlt. congruence.
           ++ apply (Hmax o); [lia | exact Hlt].
        -- exact Hfirst.
Qed.

Lemma estimateGridOffset_small (signal : list Q) (period : Z) :
  (period < 2)%Z -> estimateGridOffset signal period = 0%Z.
Proof.
  intros H. unfold estimateGridOffset.
  assert (E : (period <? 2)%Z = true) by (apply Z.ltb_lt; exact H).
  rewrite E, orb_true_r. reflexivity.
Qed.

Lemma estimateGridOffset_search (signal : list Q) (period : Z) :
  (2 <= period)%Z ->
  estimateGridOffset signal period
  = fst (fold_left
           (offset_step (offset_score signal (offset_normalizer signal)
                                      (Z.to_nat period)))
           (seq 0 (Z.to_nat period)) (0%Z, None)).
Proof.
  intros H. unfold estimateGridOffset.
  assert (E1 : (period =? 0)%Z = false) by (apply Z.eqb_neq; lia).
  assert (E2 : (period <? 2)%Z = false) by (apply Z.ltb_ge; lia).
  rewrite E1, E2. simpl orb. cbv iota.
  rewrite (fold_left_ext _
             (offset_step (offset_score signal (offset_normalizer signal)
                                        (Z.to_nat period)))).
  - destruct (fold_left _ _ _). reflexivity.
  - intros [bo bs] o. reflexivity.
Qed.

(** The running maximum is the largest element. *)
Lemma max_fold (l : list Q) (init : Q) :
  exists m,
    fold_left JS.max_step l (Some init) = Some m
    /\ In m (init :: l)
    /\ forall x, In x (init :: l) -> x <= m.
Proof.
  revert init. induction l as [| y l IH]; intros init.
  - exists init. simpl.
    split; [reflexivity |]. split; [tauto |].
    intros x [<- | []]. lra.
  - change (fold_left JS.max_step (y :: l) (Some init))
      with (fold_left JS.max_step l (if JS.ltb init y then Some y else Some init)).
    destruct (JS.ltb init y) eqn:E.
    + apply ltb_true in E. destruct (IH y) as (m & Ef & Hin & Hle).
      exists m. split; [exact Ef |]. split; [right; exact Hin |].
      intros x [<- | Hx]; [| apply Hle, Hx].
      specialize (Hle y (or_introl eq_refl)). lra.
    + apply ltb_false in E. destruct (IH init) as (m & Ef & Hin & Hle).
      exists m. split; [exact Ef |]. split.
      * destruct Hin as [<- | Hin]; [left; reflexivity | right; right; exact Hin].
      * intros x [<- | [<- | Hx]].
        -- apply Hle. left. reflexivity.
        -- specialize (Hle init (or_introl eq_refl)). lra.
        -- apply Hle. right. exact Hx.
Qed.

Lemma estimateGridOffset_range (signal : list Q) (period : Z) :
  (0 <= estimateGridOffset signal period)%Z
  /\ (estimateGridOffset signal period <= Z.max 0 (period - 1))%Z.
Proof.
  destruct (Z_lt_le_dec period 2) as [H | H].
  - rewrite (estimateGridOffset_small signal period H). lia.
  - rewrite (estimateGridOffset_search signal period H).
    destruct (offset_search
                (offset_score signal (offset_normalizer signal)
                              (Z.to_nat period))
                (Z.to_nat period)) as (b & Ef & Hb & _).
    rewrite Ef. simpl fst. lia.
Qed.

(* ================================================================== *)
(** ** Order of binary64 values *)

Lemma SFcompare_rank x y :
  match SFcompare x y with
  | Some Lt => below x y
  | Some Eq => rank x <> None /\ rank x = rank y
  | Some Gt => below y x
  | None => rank x = None \/ rank y = None
  end.
Proof.
  destruct x as [s1| s1 | | s1 m1 e1], y as [s2 | s2 | | s2 m2 e2];
    try destruct s1; try destruct s2; cbn; try lia; try (split; congruence);
    try (split; [discriminate | reflexivity]); auto.
  - destruct (Z.compare_spec e1 e2); cbn; try lia.
    change (PosDef.Pos.compare_cont Eq m1 m2) with (Pos.compare m1 m2).
    destruct (Pos.compare_spec m1 m2); cbn; try lia.
    subst. split; [discriminate | reflexivity].
  - destruct (Z.compare_spec e1 e2); cbn; try lia.
    change (PosDef.Pos.compare_cont Eq m1 m2) with (Pos.compare m1 m2).
    destruct (Pos.compare_spec m1 m2); cbn; try lia.
    subst. split; [discriminate | reflexivity].
Qed.

Lemma SFltb_below x y : SFltb x y = true <-> below x y.
Proof.
  unfold SFltb. pose proof (SFcompare_rank x y) as H.
  pose proof (SFcompare_rank y x) as H'.
  unfold below in *.
  destruct (SFcompare x y) as [[ | | ] | ].
  - destruct H as [Hn He]. rewrite <- He. destruct (rank x) as [[[a b] c] | ].
    + split; [discriminate | cbn; lia].
    + split; [discriminate | tauto].
  - tauto.
  - destruct (rank x) as [[[a b] c] | ], (rank y) as [[[a' b'] c'] | ];
      cbn in *; split; try discriminate; try tauto; lia.
  - destruct H as [H | H]; rewrite H; split; try discriminate; try tauto.
    destruct (rank x); tauto.
Qed.

Lemma SFleb_not_above x y : SFleb x y = true <-> not_above x y.
Proof.
  unfold SFleb. pose proof (SFcompare_rank x y) as H.
  unfold not_above, below in *.
  destruct (SFcompare x y) as [[ | | ] | ].
  - destruct H as [Hn He]. rewrite <- He. destruct (rank x) as [[[a b] c] | ].
    + split; auto.
    + congruence.
  - destruct (rank x), (rank y); try tauto.
  - destruct (rank x) as [[[a b] c] | ], (rank y) as [[[a' b'] c'] | ];
      cbn in *; split; try discriminate; try tauto.
    intros [H1 | H1]; [lia | ]. inversion H1; subst. lia.
  - destruct H as [H | H]; rewrite H; split; try discriminate; try tauto.
    destruct (rank x); tauto.
Qed.

Lemma below_trans x y z : below x y -> below y z -> below x z.
Proof.
  unfold below.
  destruct (rank x) as [[[a b] c] | ], (rank y) as [[[a' b'] c'] | ],
    (rank z) as [[[a'' b''] c''] | ]; cbn; try tauto; lia.
Qed.

Lemma below_not_above_trans x y z : below x y -> not_above y z -> below x z.
Proof.
  unfold below, not_above.
  destruct (rank x) as [[[a b] c] | ], (rank y) as [[[a' b'] c'] | ],
    (rank z) as [[[a'' b''] c''] | ]; cbn; try tauto.
  intros H [H1 | H1]; [lia | ]. inversion H1; subst. lia.
Qed.

Lemma below_irrefl x : ~ below x x.
Proof.
  unfold below. destruct (rank x) as [[[a b] c] | ]; cbn; [lia | tauto].
Qed.

Lemma rank_least x a :
  rank x = Some a -> a = (-2, 0, 0)%Z \/ rank_lt (-2, 0, 0)%Z a.
Proof.
  destruct x as [s | [ | ] | | [ | ] m e]; cbn; intros H; inversion H;
    subst; cbn; auto; right; lia.
Qed.


Lemma float_ltb_trans (a b c : float) :
  PrimFloat.ltb a b = true -> PrimFloat.ltb b c = true -> PrimFloat.ltb a c = true.
Proof.
  rewrite !FloatAxioms.ltb_spec, !SFltb_below. apply below_trans.
Qed.

Lemma float_ltb_leb_trans (a b c : float) :
  PrimFloat.ltb a b = true -> PrimFloat.leb b c = true -> PrimFloat.ltb a c = true.
Proof.
  rewrite !FloatAxioms.ltb_spec, FloatAxioms.leb_spec, !SFltb_below, SFleb_not_above.
  apply below_not_above_trans.
Qed.

Lemma float_ltb_irrefl (a : float) : PrimFloat.ltb a a = false.
Proof.
  destruct (PrimFloat.ltb a a) eqn:E; [ | reflexivity].
  rewrite FloatAxioms.ltb_spec, SFltb_below in E. destruct (below_irrefl _ E).
Qed.

Lemma rank_neg_infinity : rank (Prim2SF neg_infinity) = Some (-2, 0, 0)%Z.
Proof. reflexivity. Qed.

(** A number that is not above [-Infinity] has nothing above it that is
    not above [-Infinity] too. *)
Lemma float_ltb_floor (s y : float) :
  PrimFloat.ltb neg_infinity s = false ->
  PrimFloat.ltb neg_infinity y = false ->
  PrimFloat.ltb s y = false.
Proof.
  intros Hs Hy. destruct (PrimFloat.ltb s y) eqn:E; [ | reflexivity].
  rewrite FloatAxioms.ltb_spec, SFltb_below in E.
  assert (H : PrimFloat.ltb neg_infinity y = true); [ | congruence].
  rewrite FloatAxioms.ltb_spec, SFltb_below. unfold below in *.
  rewrite rank_neg_infinity.
  destruct (rank (Prim2SF s)) as [rs | ] eqn:Hrs; [ | tauto].
  destruct (rank (Prim2SF y)) as [ry | ] eqn:Hry; [ | tauto].
  destruct (rank_least _ _ Hrs) as [-> | H]; [exact E | ].
  destruct rs as [[a b] c], ry as [[a' b'] c']. cbn in *. lia.
Qed.

(* ================================================================== *)
(** ** The offset estimator in binary64 *)

(** With the fuel [estimateGridOffset] gives it, the binary64 sampling loop
    ends by its own test [i < length]. *)
Lemma sample_loop64_closed (signal : list float) (normalizer : float)
      (p : nat) :
  (0 < p)%nat ->
  forall fuel i sum count,
    (remaining (length signal) p i <= fuel)%nat ->
    Binary64.sample_loop fuel signal normalizer p i sum count
    = (fold_left
         (fun acc j =>
            PrimFloat.add acc
              (PrimFloat.mul (Binary64.get signal j) normalizer))
         (positions (length signal) p i) sum,
       (count + remaining (length signal) p i)%nat).
Proof.
  intros Hp. induction fuel as [| fuel IH]; intros i sum count Hf.
  - assert (E : remaining (length signal) p i = 0%nat) by lia.
    unfold positions. rewrite E. simpl. rewrite Nat.add_0_r. reflexivity.
  - simpl. destruct (i <? length signal)%nat eqn:E.
    + apply Nat.ltb_lt in E.
      rewrite (remaining_step _ p i Hp E) in Hf.
      rewrite IH by lia.
      rewrite (positions_step _ p i Hp E), (remaining_step _ p i Hp E).
      simpl. f_equal. lia.
    + apply Nat.ltb_ge in E. rewrite (positions_stop _ p i E).
      unfold remaining. apply Nat.ltb_ge in E. rewrite E.
      simpl. rewrite Nat.add_0_r. reflexivity.
Qed.

Lemma offset_score64_average (signal : list float) (p o : nat) :
  (0 < p)%nat ->
  Binary64.offset_score signal (Binary64.offset_normalizer signal) p o
  = computed_average signal p o.
Proof.
  intros Hp. unfold Binary64.offset_score, computed_average.
  rewrite (sample_loop64_closed signal _ p Hp).
  2:{ pose proof (remaining_le (length signal) p o Hp). lia. }
  rewrite positions_length. unfold remaining.
  destruct (o <? length signal)%nat; reflexivity.
Qed.

(** After [k] rounds the loop holds [bestScore], which no score of the
    offsets [0 .. k-1] exceeds and which exceeds or is incomparable with
    every score before [bestOffset]; it is the score of [bestOffset] unless
    no score exceeded [-Infinity]. *)
Lemma offset_search64 (score : nat -> float) (k : nat) :
  exists b bs,
    fold_left (offset_step64 score) (seq 0 k) (0%Z, PrimFloat.neg_infinity)
    = (Z.of_nat b, bs)
    /\ (b < Nat.max 1 k)%nat
    /\ ((bs = score b /\ Binary64.gt (score b) PrimFloat.neg_infinity = true)
        \/ (bs = PrimFloat.neg_infinity /\ b = 0%nat))
    /\ (forall o, (o < k)%nat -> Binary64.gt (score o) bs = false)
    /\ (forall o, (o < b)%nat -> Binary64.ge (score o) bs = false).
Proof.
  induction k as [| k IH].
  - exists 0%nat, PrimFloat.neg_infinity. simpl.
    split; [reflexivity |]. split; [lia |]. split; [right; auto |].
    split; intros o Ho; lia.
  - destruct IH as (b & bs & Ef & Hb & Hbs & Hmax & Hfirst).
    rewrite seq_S, fold_left_app, Ef. simpl.
    destruct (Binary64.gt (score k) bs) eqn:E.
    + exists k, (score k).
      split; [reflexivity |]. split; [lia |]. split; [| split].
      * left. split; [reflexivity |].
        unfold Binary64.gt in *.
        destruct (PrimFloat.ltb PrimFloat.neg_infinity (score k)) eqn:E0;
          [reflexivity |].
        exfalso.
        assert (H : PrimFloat.ltb bs (score k) = false).
        { apply float_ltb_floor; [| exact E0].
          destruct Hbs as [[-> Hgt] | [-> _]].
          - assert (Hc := float_ltb_trans _ _ _ Hgt E). congruence.
          - apply float_ltb_irrefl. }
        congruence.
      * intros o Ho. unfold Binary64.gt in *.
        destruct (Nat.eq_dec o k) as [-> | Hne]; [apply float_ltb_irrefl |].
        destruct (PrimFloat.ltb (score k) (score o)) eqn:E1; [| reflexivity].
        assert (Ho' : (o < k)%nat) by lia.
        specialize (Hmax o Ho'). rewrite (float_ltb_trans _ _ _ E E1) in Hmax.
        discriminate.
      * intros o Ho. unfold Binary64.gt, Binary64.ge in *.
        destruct (PrimFloat.leb (score k) (score o)) eqn:E1; [| reflexivity].
        pose proof (float_ltb_leb_trans _ _ _ E E1) as Hc.
        rewrite (Hmax o Ho) in Hc. discriminate.
    + exists b, bs.
      split; [reflexivity |]. split; [lia |]. split; [exact Hbs |]. split.
      * intros o Ho. destruct (Nat.eq_dec o k) as [-> | Hne]; [exact E |].
        apply Hmax. lia.
      * exact Hfirst.
Qed.

Lemma estimateGridOffset64_small (signal : list float) (period : Z) :
  (period < 2)%Z -> Binary64.estimateGridOffset signal period = 0%Z.
Proof.
  intros H. unfold Binary64.estimateGridOffset.
  assert (E : (period <? 2)%Z = true) by (apply Z.ltb_lt; exact H).
  rewrite E, orb_true_r. reflexivity.
Qed.

Lemma estimateGridOffset64_search (signal : list float) (period : Z) :
  (2 <= period)%Z ->
  Binary64.estimateGridOffset signal period
  = fst (fold_left
           (offset_step64
              (Binary64.offset_score signal (Binary64.offset_normalizer signal)
                                     (Z.to_nat period)))
           (seq 0 (Z.to_nat period)) (0%Z, PrimFloat.neg_infinity)).
Proof.
  intros H. unfold Binary64.estimateGridOffset.
  assert (E1 : (period =? 0)%Z = false) by (apply Z.eqb_neq; lia).
  assert (E2 : (period <? 2)%Z = false) by (apply Z.ltb_ge; lia).
  rewrite E1, E2. simpl orb. cbv iota.
  rewrite (fold_left_ext _
             (offset_step64
                (Binary64.offset_score signal
                   (Binary64.offset_normalizer signal) (Z.to_nat period)))).
  - destruct (fold_left _ _ _). reflexivity.
  - intros [bo bs] o. reflexivity.
Qed.

(** The offset returned for a period of at least 2, in terms of the
    computed averages. *)
Lemma estimateGridOffset64_argmax (signal : list float) (period : Z) :
  (2 <= period)%Z ->
  exists b,
    Binary64.estimateGridOffset signal period = Z.of_nat b
    /\ (b < Z.to_nat period)%nat
    /\ (b = 0%nat
        \/ Binary64.gt (computed_average signal (Z.to_nat period) b)
                       PrimFloat.neg_infinity = true)
    /\ (forall o, (o < Z.to_nat period)%nat ->
          Binary64.gt (computed_average signal (Z.to_nat period) o)
                      (computed_average signal (Z.to_nat period) b) = false)
    /\ (forall o, (o < b)%nat ->
          Binary64.ge (computed_average signal (Z.to_nat period) o)
                      (computed_average signal (Z.to_nat period) b) = false).
Proof.
  intros H. rewrite (estimateGridOffset64_search signal period H).
  assert (Hp : (0 < Z.to_nat period)%nat) by lia.
  destruct (offset_search64
              (Binary64.offset_score signal
                 (Binary64.offset_normalizer signal) (Z.to_nat period))
              (Z.to_nat period)) as (b & bs & Ef & Hb & Hbs & Hmax & Hfirst).
  exists b. rewrite Ef. simpl fst.
  split; [reflexivity |]. split; [lia |].
  rewrite <- !offset_score64_average by exact Hp.
  destruct Hbs as [[-> Hgt] | [-> ->]].
  - split; [right; exact Hgt |]. split.
    + intros o Ho. rewrite <- offset_score64_average by exact Hp.
      apply Hmax, Ho.
    + intros o Ho. rewrite <- offset_score64_average by exact Hp.
      apply Hfirst, Ho.
  - split; [left; reflexivity |]. split; [| intros o Ho; lia].
    intros o Ho. rewrite <- offset_score64_average by exact Hp.
    unfold Binary64.gt in *. apply float_ltb_floor.
    + apply (Hmax 0%nat). lia.
    + apply Hmax, Ho.
Qed.







(* ================================================================== *)
(** ** Lags of the autocorrelation curve and the period bound *)

Lemma computeAutocorrelation_length (signal : list Q) (minLag maxLag : Z) :
  length (computeAutocorrelation signal minLag maxLag)
  = Z.to_nat (maxLag - minLag + 1).
Proof.
  unfold computeAutocorrelation, lag_range.
  rewrite !length_map, length_seq. reflexivity.
Qed.

(** Entry [i] of the curve carries the lag [minLag + i]. *)
Lemma computeAutocorrelation_lag (signal : list Q) (minLag maxLag : Z) (i : nat) :
  (i < length (computeAutocorrelation signal minLag maxLag))%nat ->
  lag (entry_at (computeAutocorrelation signal minLag maxLag) i)
  = (minLag + Z.of_nat i)%Z.
Proof.
  intros H. rewrite computeAutocorrelation_length in H.
  unfold computeAutocorrelation, lag_range. rewrite map_map.
  rewrite entry_at_map_seq by exact H. reflexivity.
Qed.

(** The first entry is never a peak: every peak lag exceeds [minLag]. *)
Lemma peak_lag_above_minLag (signal : list Q) (minLag maxLag : Z)
      (e : AutocorrelationEntry) :
  In e (find_peaks (computeAutocorrelation signal minLag maxLag)) ->
  (minLag < lag e)%Z.
Proof.
  intros H. apply in_find_peaks in H.
  destruct H as (i & H1 & H2 & -> & _).
  rewrite computeAutocorrelation_lag by lia. lia.
Qed.

Lemma findBest_value_above_minLag (signal : list Q) (minLag maxLag : Z)
      (r : PeriodCandidate) :
  findBestPeriodFromAutocorrelation
    (computeAutocorrelation signal minLag maxLag) = Some r ->
  (minLag < value r)%Z.
Proof.
  intros H. apply findBest_top5 in H.
  destruct H as (top & dropped & best & Hperm & _ & _ & Hin & _ & -> & _).
  apply (peak_lag_above_minLag signal minLag maxLag).
  apply (Permutation_in _ Hperm). apply in_or_app. left. exact Hin.
Qed.

(** The combiner keeps a common lower bound of the candidates' values. *)
Lemma combine_lower_bound (x y : option PeriodCandidate) (bound : Z) (p : Q) :
  (forall c, x = Some c -> (bound <= value c)%Z) ->
  (forall c, y = Some c -> (bound <= value c)%Z) ->
  combinePeriodCandidates x y = Some p ->
  inject_Z bound <= p.
Proof.
  intros Hx Hy H. unfold combinePeriodCandidates in H.
  destruct x as [cx |], y as [cy |]; try discriminate.
  - specialize (Hx cx eq_refl). specialize (Hy cy eq_refl).
    rewrite Zle_Qle in Hx, Hy.
    destruct (Qle_bool _ 2).
    + injection H as <-. rewrite inject_Z_plus.
      apply Qle_shift_div_l; lra.
    + destruct (JS.geb _ _); injection H as <-; assumption.
  - injection H as <-. rewrite <- Zle_Qle. apply Hx. reflexivity.
  - injection H as <-. rewrite <- Zle_Qle. apply Hy. reflexivity.
Qed.

(** C9.  A period returned by [detectPeriodFromProjections] is at least 9:
    every peak lag exceeds [minLag = max(8, floor(dimension/200))], because
    the first entry of the curve is never a peak, and the combiner keeps the
    bound; so the test against [MIN_VALID_PERIOD] accepts it. *)
Theorem detectPeriodFromProjections_at_least_9
        (signalX signalY : list Q) (width height : Z) (period : Q) :
  GridDetectionService.detectPeriodFromProjections signalX signalY width height
  = Some period ->
  9 <= period
  /\ period_accepted GridDetectionService.MIN_VALID_PERIOD (Some period) = true
  /\ (forall signal dimension e,
         In e (find_peaks (computeAutocorrelation
                             signal (Z.max 8 (dimension / 200))
                             (Z.min (dimension / 2) 1024))) ->
         (Z.max 8 (dimension / 200) < lag e)%Z).
Proof.
  intros H. unfold GridDetectionService.detectPeriodFromProjections in H.
  assert (Hp : inject_Z 9 <= period).
  { apply (combine_lower_bound _ _ 9 period) in H; [exact H | |].
    - intros c Hc. apply findBest_value_above_minLag in Hc. lia.
    - intros c Hc. apply findBest_value_above_minLag in Hc. lia. }
  assert (H9 : 9 <= period) by exact Hp.
  split; [exact H9 |].
  split.
  - unfold period_accepted, GridDetectionService.MIN_VALID_PERIOD.
    apply andb_true_iff. split.
    + apply negb_true_iff. destruct (Qeq_bool period 0) eqn:E; [| reflexivity].
      apply Qeq_bool_iff in E. exfalso. lra.
    + apply geb_true. lra.
  - intros signal dimension e He.
    apply (peak_lag_above_minLag signal _ _ e He).
Qed.

Lemma detectPeriodFromProjections_witness :
  GridDetectionService.detectPeriodFromProjections comb_signal comb_signal 40 40
  = Some (20 # 2)
  /\ 9 <= 20 # 2
  /\ period_accepted GridDetectionService.MIN_VALID_PERIOD (Some (20 # 2))
     = true.
Proof.
  assert (H : GridDetectionService.detectPeriodFromProjections
                comb_signal comb_signal 40 40 = Some (20 # 2))
    by (vm_compute; reflexivity).
  split; [exact H |].
  destruct (detectPeriodFromProjections_at_least_9
              comb_signal comb_signal 40 40 (20 # 2) H) as (H9 & Ha & _).
  split; [exact H9 | exact Ha].
Defined.

(* ================================================================== *)
(** ** The scale factor, accepted periods and the manual fallback *)

Lemma scale_for_pos (maximumDimension w h : Z) :
  (0 < maximumDimension)%Z -> (0 <= w)%Z -> (0 <= h)%Z ->
  0 < scale_for maximumDimension w h.
Proof.
  intros HM Hw Hh. unfold scale_for.
  destruct (Z.max w h =? 0)%Z eqn:E; [reflexivity |].
  apply Z.eqb_neq in E.
  assert (Hm : 0 < inject_Z (Z.max w h)).
  { change 0 with (inject_Z 0). rewrite <- Zlt_Qlt. lia. }
  assert (HMq : 0 < inject_Z maximumDimension).
  { change 0 with (inject_Z 0). rewrite <- Zlt_Qlt. exact HM. }
  assert (Hq : 0 < inject_Z maximumDimension / inject_Z (Z.max w h)).
  { apply Qlt_shift_div_l; [exact Hm | lra]. }
  destruct (Q.min_spec 1 (inject_Z maximumDimension / inject_Z (Z.max w h)))
    as [[_ Hmin] | [_ Hmin]]; rewrite Hmin; [reflexivity | exact Hq].
Qed.

Lemma period_accepted_ge (minimum : Q) (period : option Q) :
  period_accepted minimum period = true ->
  exists p, period = Some p /\ minimum <= p.
Proof.
  destruct period as [p |]; simpl; [| discriminate].
  intros H. apply andb_true_iff in H. destruct H as [_ H].
  apply geb_true in H. exists p. split; [reflexivity | exact H].
Qed.

(** C3 (evaluation at the failing input).  On a flat image the automatic
    path finds nothing; with the two coincident manual points (10, 10),
    (10, 10) both implementations reach the manual fallback, round the mean
    spacing to 0 and take [minX % 0] and [minY % 0]: they return
    [gridSize = 0] with [NaN] offsets, where the claim promises a positive
    grid size and finite offsets. *)
Lemma detectGridFromImage_coincident_points :
  GridDetectionService.detectGridFromImage
    hypot_isqrt flat_image (Some [mkPoint 10 10; mkPoint 10 10])
  = Returned {| gridSize := JS.Num 0; xOffset := JS.NaN; yOffset := JS.NaN |}
  /\ DropHandler.detectGridFromImage
       hypot_isqrt flat_image (Some [mkPoint 10 10; mkPoint 10 10])
     = Returned {| gridSize := JS.Num 0; xOffset := JS.NaN; yOffset := JS.NaN |}.
Proof. split; vm_compute; reflexivity. Qed.

(* ================================================================== *)
(** ** A flat image: every stage yields zeros *)

Lemma get_zero (l : list Q) (i : nat) : all_zero l -> JS.get l i == 0.
Proof.
  intros H. unfold JS.get.
  destruct (nth_in_or_default i l 0) as [Hin | ->]; [| reflexivity].
  unfold all_zero in H. rewrite Forall_forall in H. apply H, Hin.
Qed.

Lemma getZ_zero (l : list Q) (i : Z) : all_zero l -> JS.getZ l i == 0.
Proof. intros H. apply (get_zero l (Z.to_nat i) H). Qed.

Lemma set_zero (l : list Q) (i : nat) (v : Q) :
  all_zero l -> v == 0 -> all_zero (JS.set l i v).
Proof.
  intros H Hv. revert i. induction H as [| x l Hx Hl IH]; intros i.
  - destruct i; constructor.
  - destruct i as [| i]; simpl.
    + constructor; assumption.
    + constructor; [exact Hx | apply IH].
Qed.

Lemma zeros_zero (n : nat) : all_zero (JS.zeros n).
Proof.
  unfold all_zero, JS.zeros. apply Forall_forall.
  intros x Hx. apply repeat_spec in Hx. subst x. reflexivity.
Qed.

(** A loop that adds nothing but zeros to a zero accumulator. *)
Lemma fold_left_zero {B} (f : Q -> B -> Q) (l : list B) (init : Q) :
  init == 0 ->
  (forall acc x, In x l -> acc == 0 -> f acc x == 0) ->
  fold_left f l init == 0.
Proof.
  revert init. induction l as [| x l IH]; intros init Hi Hf; simpl.
  - exact Hi.
  - apply IH.
    + apply Hf; [left; reflexivity | exact Hi].
    + intros acc y Hy. apply Hf. right. exact Hy.
Qed.

Lemma clampValue_range (v maximum : Z) :
  (0 <= maximum)%Z -> (0 <= clampValue v 0 maximum <= maximum)%Z.
Proof.
  intros H. unfold clampValue.
  destruct (v <? 0)%Z eqn:E1; [lia |]. apply Z.ltb_ge in E1.
  destruct (v >? maximum)%Z eqn:E2; [lia |].
  rewrite Z.gtb_ltb in E2. apply Z.ltb_ge in E2. lia.
Qed.

Section FlatImage.
Variable hypot : Q -> Q -> Q.
Hypothesis hypot_zero : forall x y, x == 0 -> y == 0 -> hypot x y == 0.

Lemma flat_grayscale (w h : nat) (pixels : list Z) (red green blue : Z) :
  (forall k, (k < w * h)%nat ->
     nth (4 * k) pixels 0%Z = red
     /\ nth (4 * k + 1) pixels 0%Z = green
     /\ nth (4 * k + 2) pixels 0%Z = blue) ->
  GridDetectionService.extractGrayscaleData
    (GridDetectionService.mkCanvas w h pixels)
  = map (fun _ => luminance red green blue) (seq 0 (w * h)).
Proof.
  intros H. unfold GridDetectionService.extractGrayscaleData.
  cbn [GridDetectionService.data GridDetectionService.width
       GridDetectionService.height].
  apply map_ext_in. intros k Hk. apply in_seq in Hk.
  destruct (H k) as (Hr & Hg & Hb); [lia |].
  unfold GridDetectionService.channel, luminance.
  rewrite Hr, Hg, Hb. reflexivity.
Qed.

Lemma flat_sample (c : Q) (w h x y : nat) (kx ky : Z) :
  (x < w)%nat -> (y < h)%nat ->
  GridDetectionService.sample (map (fun _ => c) (seq 0 (w * h)))
                              w h x y kx ky = c.
Proof.
  intros Hx Hy. unfold GridDetectionService.sample, JS.getZ.
  pose proof (clampValue_range (Z.of_nat y + ky) (Z.of_nat h - 1)) as Hcy.
  pose proof (clampValue_range (Z.of_nat x + kx) (Z.of_nat w - 1)) as Hcx.
  apply nth_map_seq. nia.
Qed.

Lemma flat_gradient (c : Q) (w h x y : nat) :
  (x < w)%nat -> (y < h)%nat ->
  let '(gradientX, gradientY, _) :=
    GridDetectionService.gradient_at (map (fun _ => c) (seq 0 (w * h)))
                                     w h x y in
  gradientX == 0 /\ gradientY == 0.
Proof.
  intros Hx Hy. unfold GridDetectionService.gradient_at.
  cbn [fold_left]. rewrite !(flat_sample c w h x y) by assumption.
  cbn. split; ring.
Qed.

Lemma flat_sobel (c : Q) (w h : nat) :
  all_zero (GridDetectionService.computeSobelMagnitude
              hypot (map (fun _ => c) (seq 0 (w * h))) w h).
Proof.
  unfold all_zero, GridDetectionService.computeSobelMagnitude.
  apply Forall_forall. intros v Hv.
  apply in_flat_map in Hv. destruct Hv as (y & Hy & Hv).
  apply in_map_iff in Hv. destruct Hv as (x & <- & Hx).
  apply in_seq in Hx, Hy.
  pose proof (flat_gradient c w h x y) as Hg.
  destruct (GridDetectionService.gradient_at _ w h x y) as [[gx gy] k].
  destruct Hg as [Hgx Hgy]; [lia | lia |].
  apply hypot_zero; assumption.
Qed.

Lemma project_row_zero (edge : list Q) (w : nat) (st : list Q * list Q)
      (y : nat) :
  all_zero edge -> all_zero (fst st) -> all_zero (snd st) ->
  all_zero (fst (GridDetectionService.project_row edge w st y))
  /\ all_zero (snd (GridDetectionService.project_row edge w st y)).
Proof.
  intros He Hx Hy. destruct st as [pX pY]. simpl in Hx, Hy.
  unfold GridDetectionService.project_row.
  assert (Hinner : forall l pX0 rowSum0,
             all_zero pX0 -> rowSum0 == 0 ->
             let st' :=
               fold_left
                 (fun '(projectionX, rowSum) x =>
                    let edgeValue := JS.get edge (y * w + x) in
                    (JS.set projectionX x (JS.get projectionX x + edgeValue),
                     rowSum + edgeValue))
                 l (pX0, rowSum0) in
             all_zero (fst st') /\ snd st' == 0).
  { induction l as [| x l IH]; intros pX0 rowSum0 H0 Hr; simpl.
    - split; assumption.
    - apply IH.
      + apply set_zero; [exact H0 |].
        rewrite (get_zero pX0 x H0), (get_zero edge _ He). reflexivity.
      + rewrite Hr, (get_zero edge _ He). reflexivity. }
  specialize (Hinner (seq 0 w) pX 0 Hx (Qeq_refl 0)).
  destruct (fold_left _ (seq 0 w) (pX, 0)) as [pX' rowSum].
  simpl in Hinner. destruct Hinner as [HpX Hrow]. simpl.
  split; [exact HpX | apply set_zero; assumption].
Qed.

Lemma flat_projections (edge : list Q) (w h : nat) :
  all_zero edge ->
  all_zero (fst (GridDetectionService.computeEdgeProjections edge w h))
  /\ all_zero (snd (GridDetectionService.computeEdgeProjections edge w h)).
Proof.
  intros He. unfold GridDetectionService.computeEdgeProjections.
  assert (Hloop : forall l st,
             all_zero (fst st) -> all_zero (snd st) ->
             all_zero (fst (fold_left (GridDetectionService.project_row edge w)
                                      l st))
             /\ all_zero (snd (fold_left
                                 (GridDetectionService.project_row edge w)
                                 l st))).
  { induction l as [| y l IH]; intros st Hx Hy; simpl.
    - split; assumption.
    - destruct (project_row_zero edge w st y He Hx Hy) as [Hx' Hy'].
      apply IH; assumption. }
  apply Hloop; apply zeros_zero.
Qed.

End FlatImage.

Lemma div_zero (x d : Q) : x == 0 -> x / d == 0.
Proof. intros H. unfold Qdiv. rewrite H. ring. Qed.

Lemma or_one_zero (x : Q) : x == 0 -> JS.or_one x = 1.
Proof.
  intros H. unfold JS.or_one. apply Qeq_bool_iff in H. rewrite H. reflexivity.
Qed.

Lemma suppress_negative_zero (v : Q) : v == 0 -> suppress_negative v == 0.
Proof.
  intros H. unfold suppress_negative.
  destruct (JS.ltb v 0); [rewrite H; ring | exact H].
Qed.

Lemma highpass_step_zero (signal : list Q) (halfWindow : Z)
      (st : Q * list Q) (i : nat) :
  all_zero signal -> fst st == 0 -> all_zero (snd st) ->
  fst (highpass_step signal halfWindow st i) == 0
  /\ all_zero (snd (highpass_step signal halfWindow st i)).
Proof.
  intros Hs Hr Ho. destruct st as [rs out]. simpl in Hr, Ho.
  unfold highpass_step.
  set (rs1 := if (_ && _)%bool then rs + _ else rs).
  assert (H1 : rs1 == 0).
  { unfold rs1. destruct (_ && _)%bool; [| exact Hr].
    rewrite Hr, (getZ_zero signal _ Hs). reflexivity. }
  set (rs2 := if (_ >=? 0)%Z then rs1 - _ else rs1).
  assert (H2 : rs2 == 0).
  { unfold rs2. destruct (_ >=? 0)%Z; [| exact H1].
    rewrite H1, (getZ_zero signal _ Hs). reflexivity. }
  simpl. split; [exact H2 |].
  unfold all_zero. apply Forall_app. split; [exact Ho |].
  constructor; [| constructor].
  rewrite (get_zero signal i Hs), (div_zero rs2 _ H2). reflexivity.
Qed.

Lemma sliding_highpass_zero (signal : list Q) (effectiveWindow : Z) :
  all_zero signal -> all_zero (sliding_highpass signal effectiveWindow).
Proof.
  intros Hs. unfold sliding_highpass.
  set (rs0 := fold_left _ (seq 0 (Nat.min _ _)) 0).
  assert (H0 : rs0 == 0).
  { unfold rs0. apply fold_left_zero; [reflexivity |].
    intros acc x _ Ha. rewrite Ha, (get_zero signal x Hs). reflexivity. }
  assert (Hloop : forall l st,
             fst st == 0 -> all_zero (snd st) ->
             all_zero (snd (fold_left
                              (highpass_step signal (effectiveWindow / 2))
                              l st))).
  { induction l as [| i l IH]; intros st Hr Ho; simpl.
    - exact Ho.
    - destruct (highpass_step_zero signal (effectiveWindow / 2) st i Hs Hr Ho).
      apply IH; assumption. }
  specialize (Hloop (seq 0 (length signal)) (rs0, []) H0 (Forall_nil _)).
  destruct (fold_left _ (seq 0 (length signal)) (rs0, [])) as [rs out].
  simpl in Hloop. unfold all_zero in *. rewrite Forall_forall in *.
  intros v Hv. apply in_map_iff in Hv. destruct Hv as (u & <- & Hu).
  apply suppress_negative_zero, Hloop, Hu.
Qed.

Lemma min_fold_in (l : list Q) (init : Q) :
  exists m, fold_left JS.min_step l (Some init) = Some m /\ In m (init :: l).
Proof.
  revert init. induction l as [| y l IH]; intros init.
  - exists init. split; [reflexivity | left; reflexivity].
  - change (fold_left JS.min_step (y :: l) (Some init))
      with (fold_left JS.min_step l (if JS.ltb y init then Some y else Some init)).
    destruct (JS.ltb y init).
    + destruct (IH y) as (m & Ef & Hin). exists m.
      split; [exact Ef | right; exact Hin].
    + destruct (IH init) as (m & Ef & Hin). exists m.
      split; [exact Ef |].
      destruct Hin as [<- | Hin]; [left; reflexivity | right; right; exact Hin].
Qed.

Lemma normalizeSignal_zero (signal : list Q) :
  all_zero signal -> all_zero (normalizeSignal signal).
Proof.
  intros Hs. unfold normalizeSignal.
  destruct signal as [| x l]; [constructor |].
  simpl fold_left.
  destruct (max_fold l x) as (hi & Ehi & Hhi & _).
  destruct (min_fold_in l x) as (lo & Elo & Hlo).
  rewrite Ehi, Elo.
  unfold all_zero in *. rewrite Forall_forall in *.
  assert (Zhi : hi == 0) by (apply Hs, Hhi).
  assert (Zlo : lo == 0) by (apply Hs, Hlo).
  rewrite or_one_zero by (rewrite Zhi, Zlo; reflexivity).
  intros v Hv. apply in_map_iff in Hv. destruct Hv as (u & <- & Hu).
  apply div_zero. rewrite (Hs u Hu), Zlo. reflexivity.
Qed.

Lemma processProjection_zero (projection : list Q) (dimension : Z) :
  all_zero projection ->
  all_zero (GridDetectionService.processProjection projection dimension).
Proof.
  intros H. unfold GridDetectionService.processProjection, applyHighPassFilter.
  apply normalizeSignal_zero, sliding_highpass_zero, H.
Qed.

(** The autocorrelation of a zero signal is zero at every lag: the
    denominator is replaced by 1 and every numerator is 0. *)
Lemma computeAutocorrelation_zero (signal : list Q) (minLag maxLag : Z) :
  all_zero signal ->
  Forall (fun e => val e == 0) (computeAutocorrelation signal minLag maxLag).
Proof.
  intros Hs. unfold computeAutocorrelation.
  set (mean := sum_signal signal / _).
  assert (Hmean : mean == 0).
  { apply div_zero. unfold sum_signal. apply fold_left_zero; [reflexivity |].
    intros acc x Hx Ha. unfold all_zero in Hs. rewrite Forall_forall in Hs.
    rewrite Ha, (Hs x Hx). reflexivity. }
  apply Forall_forall. intros e He. apply in_map_iff in He.
  destruct He as (l & <- & _). simpl.
  apply div_zero. unfold numerator_at. apply fold_left_zero; [reflexivity |].
  intros acc i _ Ha.
  rewrite Ha, (get_zero signal i Hs), (getZ_zero signal _ Hs), Hmean.
  reflexivity.
Qed.

Lemma entry_val_zero (ac : list AutocorrelationEntry) (i : nat) :
  Forall (fun e => val e == 0) ac -> val (entry_at ac i) == 0.
Proof.
  intros H. unfold entry_at.
  destruct (nth_in_or_default i ac dummy_entry) as [Hin | ->];
    [| reflexivity].
  rewrite Forall_forall in H. apply H, Hin.
Qed.

Lemma filter_none {A} (P : A -> bool) (l : list A) :
  (forall x, In x l -> P x = false) -> filter P l = [].
Proof.
  induction l as [| x l IH]; intros H; simpl; [reflexivity |].
  rewrite (H x (or_introl eq_refl)). apply IH.
  intros y Hy. apply H. right. exact Hy.
Qed.

(** A curve that is zero throughout has no local maximum. *)
Lemma find_peaks_zero (ac : list AutocorrelationEntry) :
  Forall (fun e => val e == 0) ac -> find_peaks ac = [].
Proof.
  intros H. rewrite find_peaks_filter, filter_none; [reflexivity |].
  intros i _. unfold isPeak.
  assert (E : JS.ltb (val (entry_at ac (i - 1))) (val (entry_at ac i)) = false).
  { apply ltb_false.
    rewrite (entry_val_zero ac i H), (entry_val_zero ac (i - 1) H). lra. }
  rewrite E. reflexivity.
Qed.

Lemma detectPeriodFromProjections_zero (signalX signalY : list Q)
      (width height : Z) :
  all_zero signalX -> all_zero signalY ->
  GridDetectionService.detectPeriodFromProjections signalX signalY width height
  = None.
Proof.
  intros Hx Hy. unfold GridDetectionService.detectPeriodFromProjections.
  rewrite (proj2 (findBest_none _))
    by (apply find_peaks_zero, computeAutocorrelation_zero, Hx).
  rewrite (proj2 (findBest_none _))
    by (apply find_peaks_zero, computeAutocorrelation_zero, Hy).
  reflexivity.
Qed.

Lemma flat_conditioned (hypot : Q -> Q -> Q) (image : LoadedImage)
      (red green blue : Z) :
  (forall x y, x == 0 -> y == 0 -> hypot x y == 0) ->
  uniform_colour image red green blue ->
  all_zero (fst (fst (fst (GridDetectionService.conditioned hypot image))))
  /\ all_zero (snd (fst (fst (GridDetectionService.conditioned hypot image)))).
Proof.
  intros Hz Hu. unfold GridDetectionService.conditioned,
                  GridDetectionService.createScaledCanvas.
  cbn [GridDetectionService.width GridDetectionService.height].
  set (w := scaled_size (img_width image) _).
  set (h := scaled_size (img_height image) _).
  rewrite (flat_grayscale w h (img_render image w h) red green blue)
    by (apply Hu).
  pose proof (flat_projections
                (GridDetectionService.computeSobelMagnitude
                   hypot (map (fun _ => luminance red green blue)
                              (seq 0 (w * h))) w h)
                w h (flat_sobel hypot Hz _ w h)) as [Hx Hy].
  destruct (GridDetectionService.computeEdgeProjections _ w h) as [pX pY].
  simpl in Hx, Hy. simpl.
  split; apply processProjection_zero; assumption.
Qed.

(** C8.  For an image in a single colour, called without manual points or
    with fewer than two: both conditioned projections are zero throughout,
    every autocorrelation value is zero, neither axis has a local maximum,
    the combined period is null, and the call throws the
    insufficient-periodic-signal error. *)
Theorem flat_image_throws
        (hypot : Q -> Q -> Q) (image : LoadedImage) (red green blue : Z)
        (points : option (list Point)) :
  (forall x y, x == 0 -> y == 0 -> hypot x y == 0) ->
  uniform_colour image red green blue ->
  (forall l, points = Some l -> (length l < 2)%nat) ->
  (forall filteredX filteredY scaledCanvas scaleFactor,
      GridDetectionService.conditioned hypot image
      = (filteredX, filteredY, scaledCanvas, scaleFactor) ->
      all_zero filteredX /\ all_zero filteredY
      /\ (forall minLag maxLag,
             Forall (fun e => val e == 0)
                    (computeAutocorrelation filteredX minLag maxLag)
             /\ Forall (fun e => val e == 0)
                       (computeAutocorrelation filteredY minLag maxLag)
             /\ find_peaks (computeAutocorrelation filteredX minLag maxLag) = []
             /\ find_peaks (computeAutocorrelation filteredY minLag maxLag) = [])
      /\ GridDetectionService.detectPeriodFromProjections
           filteredX filteredY
           (Z.of_nat (GridDetectionService.width scaledCanvas))
           (Z.of_nat (GridDetectionService.height scaledCanvas))
         = None)
  /\ GridDetectionService.detectGridFromImage hypot image points
     = Thrown insufficient_signal.
Proof.
  intros Hz Hu Hpts.
  pose proof (flat_conditioned hypot image red green blue Hz Hu) as [Hx Hy].
  split.
  - intros fx fy canvas scale Ec. rewrite Ec in Hx, Hy. simpl in Hx, Hy.
    split; [exact Hx |]. split; [exact Hy |]. split.
    + intros minLag maxLag.
      pose proof (computeAutocorrelation_zero fx minLag maxLag Hx) as Zx.
      pose proof (computeAutocorrelation_zero fy minLag maxLag Hy) as Zy.
      split; [exact Zx |]. split; [exact Zy |].
      split; apply find_peaks_zero; assumption.
    + apply detectPeriodFromProjections_zero; assumption.
  - unfold GridDetectionService.detectGridFromImage.
    destruct (GridDetectionService.conditioned hypot image)
      as [[[fx fy] canvas] scale].
    simpl in Hx, Hy.
    rewrite (detectPeriodFromProjections_zero fx fy _ _ Hx Hy).
    unfold period_accepted.
    destruct points as [l |]; [| reflexivity].
    specialize (Hpts l eq_refl).
    destruct (2 <=? length l)%nat eqn:E; [| reflexivity].
    apply Nat.leb_le in E. lia.
Qed.

Lemma hypot_isqrt_zero (x y : Q) : x == 0 -> y == 0 -> hypot_isqrt x y == 0.
Proof.
  intros Hx Hy. unfold hypot_isqrt.
  assert (E : Qred (x * x + y * y) = Qred 0).
  { apply Qred_complete. rewrite Hx, Hy. reflexivity. }
  rewrite E. reflexivity.
Qed.

Lemma flat_image_uniform : uniform_colour flat_image 200 200 200.
Proof.
  intros w h k Hk. simpl.
  assert (H : forall i, nth i (repeat 200%Z (4 * w * h)) 0%Z = 200%Z
                        \/ nth i (repeat 200%Z (4 * w * h)) 0%Z = 0%Z).
  { intros i. destruct (nth_in_or_default i (repeat 200%Z (4 * w * h)) 0%Z)
      as [Hin | ->]; [left; apply (repeat_spec _ _ _ Hin) | right; reflexivity]. }
  assert (Hlen : forall i, (i < 4 * w * h)%nat ->
                           nth i (repeat 200%Z (4 * w * h)) 0%Z = 200%Z).
  { intros i Hi. rewrite (nth_indep _ 0%Z 200%Z) by (rewrite repeat_length; exact Hi).
    apply nth_repeat. }
  repeat split; apply Hlen; lia.
Qed.

Lemma flat_image_throws_witness :
  GridDetectionService.detectGridFromImage hypot_isqrt flat_image None
  = Thrown insufficient_signal.
Proof.
  apply (proj2 (flat_image_throws hypot_isqrt flat_image 200 200 200 None
                                  hypot_isqrt_zero flat_image_uniform
                                  (fun l H => ltac:(discriminate H)))).
Defined.

(* ================================================================== *)
(** ** The drop handler's copy against the service *)

Lemma set_app (front back : list Q) (v : Q) :
  JS.set (front ++ back) (length front) v = front ++ JS.set back 0 v.
Proof.
  induction front as [| x front IH]; simpl.
  - destruct back; reflexivity.
  - rewrite IH. reflexivity.
Qed.

Lemma skipn_cons {A} (n : nat) (l : list A) :
  (n < length l)%nat -> exists x, skipn n l = x :: skipn (S n) l.
Proof.
  revert l. induction n as [| n IH]; intros l H.
  - destruct l as [| x l]; simpl in H; [lia |]. exists x. reflexivity.
  - destruct l as [| y l]; simpl in H; [lia |].
    destruct (IH l) as [x Ex]; [lia |]. exists x. exact Ex.
Qed.

(** Storing [f k] at every index [k < n], in order, fills the first [n]
    cells. *)
Lemma set_fill (f : nat -> Q) (n : nat) (cells : list Q) :
  (n <= length cells)%nat ->
  fold_left (fun grayscale k => JS.set grayscale k (f k)) (seq 0 n) cells
  = map f (seq 0 n) ++ skipn n cells.
Proof.
  induction n as [| n IH]; intros H.
  - reflexivity.
  - rewrite seq_S, fold_left_app, IH by lia. simpl fold_left.
    destruct (skipn_cons n cells) as [x Ex]; [lia |].
    rewrite Ex.
    replace n with (length (map f (seq 0 n))) at 3
      by (rewrite length_map, length_seq; reflexivity).
    rewrite set_app. simpl. rewrite map_app, <- app_assoc. reflexivity.
Qed.

Lemma grayscale_agree (pixelData : list Z) (w h : nat) :
  length pixelData = (4 * w * h)%nat ->
  DropHandler.grayscale_of pixelData w h
  = GridDetectionService.extractGrayscaleData
      (GridDetectionService.mkCanvas w h pixelData).
Proof.
  intros Hlen.
  unfold DropHandler.grayscale_of, GridDetectionService.extractGrayscaleData.
  cbn [GridDetectionService.data GridDetectionService.width
       GridDetectionService.height].
  replace ((length pixelData + 3) / 4)%nat with (w * h)%nat.
  2:{ rewrite Hlen. apply Nat.div_unique with (r := 3%nat); lia. }
  etransitivity.
  - apply (set_fill
             (fun pixelIndex =>
                (299 # 1000) * inject_Z (nth (4 * pixelIndex) pixelData 0%Z)
                + (587 # 1000) * inject_Z (nth (4 * pixelIndex + 1) pixelData 0%Z)
                + (114 # 1000) * inject_Z (nth (4 * pixelIndex + 2) pixelData 0%Z))).
    unfold JS.zeros. rewrite repeat_length. lia.
  - unfold JS.zeros. rewrite skipn_all2 by (rewrite repeat_length; lia).
    rewrite app_nil_r. reflexivity.
Qed.

Lemma sobel_agree (hypot : Q -> Q -> Q) (grayscale : list Q) (w h : nat) :
  DropHandler.sobelMagnitude hypot grayscale w h
  = GridDetectionService.computeSobelMagnitude hypot grayscale w h.
Proof. reflexivity. Qed.

Lemma projections_agree (magnitude : list Q) (w h : nat) :
  DropHandler.projections_of magnitude w h
  = GridDetectionService.computeEdgeProjections magnitude w h.
Proof.
  unfold DropHandler.projections_of, GridDetectionService.computeEdgeProjections.
  apply fold_left_ext. intros [projectionX projectionY] y. reflexivity.
Qed.

Lemma normalize_agree (signal : list Q) :
  DropHandler.normalize signal = normalizeSignal signal.
Proof. reflexivity. Qed.

Lemma autocorr_agree (signal : list Q) (minLag maxLag : Z) :
  DropHandler.autocorr1D signal minLag maxLag
  = computeAutocorrelation signal minLag maxLag.
Proof. reflexivity. Qed.

Lemma get_map (f : Q -> Q) (l : list Q) (i : nat) :
  (i < length l)%nat -> JS.get (map f l) i = f (JS.get l i).
Proof.
  intros H. unfold JS.get.
  rewrite (nth_indep _ 0 (f 0)) by (rewrite length_map; exact H).
  apply map_nth.
Qed.

(** Summing the pre-multiplied copy is summing the products. *)
Lemma shift_loop_agree (signal : list Q) (inv : Q) (p : nat) :
  forall fuel i sum count,
    DropHandler.shift_loop fuel (map (fun v => v * inv) signal)
                           (length signal) p i sum count
    = sample_loop fuel signal inv p i sum count.
Proof.
  induction fuel as [| fuel IH]; intros i sum count; simpl; [reflexivity |].
  destruct (i <? length signal)%nat eqn:E; [| reflexivity].
  apply Nat.ltb_lt in E. rewrite get_map by exact E. apply IH.
Qed.

Lemma estimateOffset_agree (signal : list Q) (period : Z) :
  DropHandler.estimateOffsetFromProjection signal period
  = estimateGridOffset signal period.
Proof.
  unfold DropHandler.estimateOffsetFromProjection, estimateGridOffset.
  destruct ((period =? 0)%Z || (period <? 2)%Z)%bool; [reflexivity |].
  cbv zeta.
  rewrite (fold_left_ext _
             (fun '(bestOffset, bestScore) offset =>
                if score_gt (offset_score signal (offset_normalizer signal)
                                          (Z.to_nat period) offset) bestScore
                then (Z.of_nat offset,
                      offset_score signal (offset_normalizer signal)
                                   (Z.to_nat period) offset)
                else (bestOffset, bestScore))).
  - reflexivity.
  - intros [bestShift bestScore] shift.
    change (match fold_left JS.max_step signal None with
            | Some max => if Qeq_bool max 0 then 1 else 1 / max
            | None => 0
            end) with (offset_normalizer signal).
    rewrite shift_loop_agree. unfold offset_score.
    destruct (sample_loop _ _ _ _ _ _ _) as [sum count]. reflexivity.
Qed.

(** The two implementations agree whenever the canvas hands back
    [4 * width * height] bytes, as [getImageData] does. *)
Lemma detectGridFromImage_agree (hypot : Q -> Q -> Q) (image : LoadedImage)
      (points : option (list Point)) :
  (forall w h, length (img_render image w h) = (4 * w * h)%nat) ->
  DropHandler.detectGridFromImage hypot image points
  = GridDetectionService.detectGridFromImage hypot image points.
Proof.
  intros Hlen.
  unfold DropHandler.detectGridFromImage,
    GridDetectionService.detectGridFromImage,
    GridDetectionService.conditioned,
    GridDetectionService.createScaledCanvas,
    GridDetectionService.detectPeriodFromProjections,
    GridDetectionService.buildDetectionResult,
    GridDetectionService.processProjection,
    GridDetectionService.MIN_VALID_PERIOD,
    GridDetectionService.MAX_PROCESSING_DIMENSION,
    combinePeriodCandidates.
  cbv zeta.
  cbn [GridDetectionService.width GridDetectionService.height].
  rewrite grayscale_agree by apply Hlen.
  rewrite sobel_agree, projections_agree.
  destruct (GridDetectionService.computeEdgeProjections _ _ _) as [pX pY].
  rewrite !highPass1D_eq, !normalize_agree, !autocorr_agree.
  rewrite !pickPeriodFromAutocorr_eq.
  destruct (findBestPeriodFromAutocorrelation _) as [candidateX |];
    destruct (findBestPeriodFromAutocorrelation _) as [candidateY |];
    try destruct (Qle_bool _ 2); try destruct (JS.geb _ _);
    cbv beta iota; rewrite ?estimateOffset_agree; reflexivity.
Qed.

(** C2.  On the same image and manual points, the drop handler's detection
    and the service's detection have the same outcome: the same grid size
    and offsets when one returns, the same error when one throws. *)
Theorem implementations_agree
        (hypot : Q -> Q -> Q) (image : LoadedImage)
        (points : option (list Point)) :
  (forall w h, length (img_render image w h) = (4 * w * h)%nat) ->
  DropHandler.detectGridFromImage hypot image points
  = GridDetectionService.detectGridFromImage hypot image points
  /\ (forall r,
         DropHandler.detectGridFromImage hypot image points = Returned r
         <-> GridDetectionService.detectGridFromImage hypot image points
             = Returned r)
  /\ (forall message,
         DropHandler.detectGridFromImage hypot image points = Thrown message
         <-> GridDetectionService.detectGridFromImage hypot image points
             = Thrown message).
Proof.
  intros Hlen.
  pose proof (detectGridFromImage_agree hypot image points Hlen) as E.
  split; [exact E |].
  split; intros x; rewrite E; reflexivity.
Qed.

Lemma flat_image_length (w h : nat) :
  length (img_render flat_image w h) = (4 * w * h)%nat.
Proof. simpl. apply repeat_length. Qed.

Lemma implementations_agree_witness :
  DropHandler.detectGridFromImage
    hypot_isqrt flat_image (Some [mkPoint 10 10; mkPoint 110 110])
  = GridDetectionService.detectGridFromImage
      hypot_isqrt flat_image (Some [mkPoint 10 10; mkPoint 110 110]).
Proof.
  exact (proj1 (implementations_agree
                  hypot_isqrt flat_image
                  (Some [mkPoint 10 10; mkPoint 110 110])
                  flat_image_length)).
Defined.

(* ================================================================== *)
(** * Further properties of the signal utilities *)

Lemma min_fold (l : list Q) (init : Q) :
  exists m,
    fold_left JS.min_step l (Some init) = Some m
    /\ In m (init :: l)
    /\ forall x, In x (init :: l) -> m <= x.
Proof.
  revert init. induction l as [| y l IH]; intros init.
  - exists init. split; [reflexivity |]. split; [left; reflexivity |].
    intros x [<- | []]. lra.
  - change (fold_left JS.min_step (y :: l) (Some init))
      with (fold_left JS.min_step l (if JS.ltb y init then Some y else Some init)).
    destruct (JS.ltb y init) eqn:E.
    + apply ltb_true in E. destruct (IH y) as (m & Ef & Hin & Hle).
      exists m. split; [exact Ef |]. split; [right; exact Hin |].
      intros x [<- | Hx]; [| apply Hle, Hx].
      specialize (Hle y (or_introl eq_refl)). lra.
    + apply ltb_false in E. destruct (IH init) as (m & Ef & Hin & Hle).
      exists m. split; [exact Ef |]. split.
      * destruct Hin as [<- | Hin]; [left; reflexivity | right; right; exact Hin].
      * intros x [<- | [<- | Hx]].
        -- apply Hle. left. reflexivity.
        -- specialize (Hle init (or_introl eq_refl)). lra.
        -- apply Hle. right. exact Hx.
Qed.


Lemma normalizeSignal_length (signal : list Q) :
  length (normalizeSignal signal) = length signal.
Proof.
  unfold normalizeSignal. destruct signal as [| x l]; [reflexivity |].
  simpl fold_left.
  destruct (max_fold l x) as (hi & Ehi & _).
  destruct (min_fold l x) as (lo & Elo & _).
  rewrite Ehi, Elo. apply length_map.
Qed.


(** X2.  The autocorrelation curve has one entry per lag from [minLag] to
    [maxLag], in order: entry [i] carries the lag [minLag + i], the lags
    increase along the curve, and the curve is empty when
    [maxLag < minLag].  A lag that leaves no overlapping samples (at least
    the signal's length) has correlation 0. *)
Theorem computeAutocorrelation_curve (signal : list Q) (minLag maxLag : Z) :
  length (computeAutocorrelation signal minLag maxLag)
  = Z.to_nat (maxLag - minLag + 1)
  /\ (forall i, (i < length (computeAutocorrelation signal minLag maxLag))%nat ->
                lag (entry_at (computeAutocorrelation signal minLag maxLag) i)
                = (minLag + Z.of_nat i)%Z)
  /\ (forall e, In e (computeAutocorrelation signal minLag maxLag) ->
                (minLag <= lag e <= maxLag)%Z)
  /\ ((maxLag < minLag)%Z -> computeAutocorrelation signal minLag maxLag = [])
  /\ lags_increasing (computeAutocorrelation signal minLag maxLag)
  /\ (forall e, In e (computeAutocorrelation signal minLag maxLag) ->
                (Z.of_nat (length signal) <= lag e)%Z -> val e == 0).
Proof.
  split; [apply computeAutocorrelation_length |].
  split; [apply computeAutocorrelation_lag |].
  split.
  { intros e He. unfold computeAutocorrelation, lag_range in He.
    apply in_map_iff in He. destruct He as (l & <- & Hl).
    apply in_map_iff in Hl. destruct Hl as (k & <- & Hk).
    apply in_seq in Hk. simpl. lia. }
  split.
  { intros H. apply length_zero_iff_nil.
    rewrite computeAutocorrelation_length. lia. }
  split.
  { intros i j H.
    rewrite !computeAutocorrelation_lag by lia. lia. }
  intros e He Hlag. unfold computeAutocorrelation in He.
  apply in_map_iff in He. destruct He as (l & <- & _).
  simpl in *. apply div_zero. unfold numerator_at.
  replace (Z.to_nat (Z.of_nat (length signal) - l)) with 0%nat by lia.
  reflexivity.
Qed.

Lemma highpass_loop_length (signal : list Q) (halfWindow : Z)
      (l : list nat) (st : Q * list Q) :
  length (snd (fold_left (highpass_step signal halfWindow) l st))
  = (length (snd st) + length l)%nat.
Proof.
  revert st. induction l as [| i l IH]; intros st; simpl.
  - lia.
  - rewrite IH. destruct st as [rs out]. unfold highpass_step. simpl.
    rewrite length_app. simpl. lia.
Qed.

Lemma sliding_highpass_length (signal : list Q) (effectiveWindow : Z) :
  length (sliding_highpass signal effectiveWindow) = length signal.
Proof.
  unfold sliding_highpass.
  set (rs0 := fold_left _ (seq 0 (Nat.min _ _)) 0).
  pose proof (highpass_loop_length signal (effectiveWindow / 2)
                                   (seq 0 (length signal)) (rs0, [])) as H.
  destruct (fold_left _ (seq 0 (length signal)) (rs0, [])) as [rs out].
  simpl in H. rewrite length_map, H, length_seq. reflexivity.
Qed.

(** X3.  The high-pass filter returns one value per sample, whatever the
    window; a window argument that truncates to 3 or less (0, negative or
    fractional ones included) is the window 3; the drop handler's filter
    has the same lengths. *)
Theorem applyHighPassFilter_length (signal : list Q) (windowSize : Q) :
  length (applyHighPassFilter signal windowSize) = length signal
  /\ length (DropHandler.highPass1D signal windowSize) = length signal
  /\ (3 <= effective_window windowSize)%Z
  /\ ((JS.to_int32 windowSize <= 3)%Z ->
      applyHighPassFilter signal windowSize = applyHighPassFilter signal 3)
  /\ length (GridDetectionService.processProjection signal
               (Z.of_nat (length signal)))
     = length signal.
Proof.
  split; [apply sliding_highpass_length |].
  split; [rewrite highPass1D_eq; apply sliding_highpass_length |].
  split; [unfold effective_window; lia |].
  split.
  - intros H. unfold applyHighPassFilter, effective_window.
    replace (Z.max 3 (JS.to_int32 windowSize)) with 3%Z by lia.
    reflexivity.
  - unfold GridDetectionService.processProjection.
    rewrite normalizeSignal_length.
    apply sliding_highpass_length.
Qed.

(** X4.  When both axes have a candidate the combined period lies between
    the two candidate values, and it is one of them when they differ by
    more than 2. *)
Theorem combinePeriodCandidates_between (x y : PeriodCandidate) (p : Q) :
  combinePeriodCandidates (Some x) (Some y) = Some p ->
  inject_Z (Z.min (value x) (value y)) <= p
  /\ p <= inject_Z (Z.max (value x) (value y))
  /\ (2 < value_gap x y ->
      p = inject_Z (value x) \/ p = inject_Z (value y)).
Proof.
  intros H. unfold combinePeriodCandidates in H.
  pose proof (Z.le_min_l (value x) (value y)) as H1.
  pose proof (Z.le_min_r (value x) (value y)) as H2.
  pose proof (Z.le_max_l (value x) (value y)) as H3.
  pose proof (Z.le_max_r (value x) (value y)) as H4.
  rewrite Zle_Qle in H1, H2, H3, H4.
  destruct (Qle_bool (Qabs (inject_Z (value x - value y))) 2) eqn:E.
  - injection H as <-. apply Qle_bool_iff in E.
    rewrite inject_Z_plus.
    split; [apply Qle_shift_div_l; lra |].
    split; [apply Qle_shift_div_r; lra |].
    intros Hgap. unfold value_gap in Hgap. exfalso. lra.
  - destruct (JS.geb (score x) (score y)); injection H as <-.
    + split; [exact H1 |]. split; [exact H3 |]. intros _. left. reflexivity.
    + split; [exact H2 |]. split; [exact H4 |]. intros _. right. reflexivity.
Qed.

Lemma combinePeriodCandidates_between_witness :
  inject_Z (Z.min 50 52) <= inject_Z (50 + 52) / 2
  /\ inject_Z (50 + 52) / 2 <= inject_Z (Z.max 50 52).
Proof.
  destruct (combinePeriodCandidates_between
              (mkCandidate 50 (9 # 10)) (mkCandidate 52 (7 # 10))
              (inject_Z (50 + 52) / 2) eq_refl) as (H1 & H2 & _).
  split; [exact H1 | exact H2].
Defined.

(* ================================================================== *)
(** * Further properties of the service *)

Lemma clamp_in_range (v maximum : Z) :
  (0 <= maximum)%Z ->
  (0 <= clampValue v 0 maximum <= maximum)%Z
  /\ ((0 <= v <= maximum)%Z -> clampValue v 0 maximum = v).
Proof.
  intros H. split; [apply clampValue_range, H |].
  intros Hv. unfold clampValue.
  destruct (v <? 0)%Z eqn:E1; [apply Z.ltb_lt in E1; lia |].
  destruct (v >? maximum)%Z eqn:E2; [| reflexivity].
  rewrite Z.gtb_ltb in E2. apply Z.ltb_lt in E2. lia.
Qed.

(** X5.  Every value the Sobel kernel reads is a pixel of the image: the
    clamped coordinates never leave it, and inside the image they are the
    neighbour's own coordinates. *)
Theorem sobel_sample_in_image
        (grayscale : list Q) (w h x y : nat) (kx ky : Z) :
  length grayscale = (w * h)%nat -> (x < w)%nat -> (y < h)%nat ->
  In (GridDetectionService.sample grayscale w h x y kx ky) grayscale
  /\ ((0 <= Z.of_nat x + kx < Z.of_nat w)%Z ->
      (0 <= Z.of_nat y + ky < Z.of_nat h)%Z ->
      GridDetectionService.sample grayscale w h x y kx ky
      = JS.getZ grayscale
                ((Z.of_nat y + ky) * Z.of_nat w + (Z.of_nat x + kx))).
Proof.
  intros Hlen Hx Hy. unfold GridDetectionService.sample.
  destruct (clamp_in_range (Z.of_nat y + ky) (Z.of_nat h - 1)) as [Hcy Hiy];
    [lia |].
  destruct (clamp_in_range (Z.of_nat x + kx) (Z.of_nat w - 1)) as [Hcx Hix];
    [lia |].
  split.
  - unfold JS.getZ. apply nth_In. rewrite Hlen. nia.
  - intros Hxin Hyin. rewrite Hiy, Hix by lia. reflexivity.
Qed.

Lemma sobel_sample_in_image_witness :
  In (GridDetectionService.sample [1; 2; 3; 4] 2 2 0 0 (-1) (-1)) [1; 2; 3; 4].
Proof.
  apply (sobel_sample_in_image [1; 2; 3; 4] 2 2 0 0 (-1) (-1));
    [reflexivity | lia | lia].
Defined.

Lemma floor_unique (q : Q) (z : Z) :
  inject_Z z <= q -> q < inject_Z (z + 1) -> Qfloor q = z.
Proof.
  intros H1 H2.
  pose proof (Qfloor_le q) as F1. pose proof (Qlt_floor q) as F2.
  assert (A : inject_Z (Qfloor q) < inject_Z (z + 1)) by lra.
  assert (B : inject_Z z < inject_Z (Qfloor q + 1)) by lra.
  rewrite <- Zlt_Qlt in A, B. lia.
Qed.

Lemma round_inject_Z (z : Z) : JS.round (inject_Z z) = z.
Proof.
  unfold JS.round. apply floor_unique.
  - lra.
  - rewrite inject_Z_plus. change (inject_Z 1) with 1. lra.
Qed.

Lemma round_le (q : Q) (z : Z) : q <= inject_Z z -> (JS.round q <= z)%Z.
Proof.
  intros H. rewrite <- (round_inject_Z z) at 1.
  unfold JS.round. apply Qfloor_resp_le. lra.
Qed.


Lemma round_upper (q : Q) : inject_Z (JS.round q) <= q + (1 # 2).
Proof. unfold JS.round. apply Qfloor_le. Qed.

Lemma scale_for_le_1 (maximumDimension w h : Z) :
  scale_for maximumDimension w h <= 1.
Proof.
  unfold scale_for. destruct (Z.max w h =? 0)%Z; [lra | apply Q.le_min_l].
Qed.

Lemma scaled_product_le (maximumDimension w h size : Z) :
  (0 < maximumDimension)%Z -> (0 <= w)%Z -> (0 <= h)%Z ->
  (0 <= size <= Z.max w h)%Z ->
  inject_Z size * scale_for maximumDimension w h <= inject_Z maximumDimension.
Proof.
  intros HM Hw Hh Hs. unfold scale_for.
  destruct (Z.max w h =? 0)%Z eqn:E.
  - apply Z.eqb_eq in E. assert (size = 0%Z) by lia. subst size.
    rewrite Qmult_1_r. rewrite <- Zle_Qle. lia.
  - apply Z.eqb_neq in E.
    assert (Hm : 0 < inject_Z (Z.max w h)).
    { change 0 with (inject_Z 0). rewrite <- Zlt_Qlt. lia. }
    assert (HMq : 0 < inject_Z maximumDimension).
    { change 0 with (inject_Z 0). rewrite <- Zlt_Qlt. exact HM. }
    assert (Hsz : 0 <= inject_Z size <= inject_Z (Z.max w h)).
    { split; [change 0 with (inject_Z 0) |]; rewrite <- Zle_Qle; lia. }
    set (m := inject_Z (Z.max w h)) in *.
    set (M := inject_Z maximumDimension) in *.
    set (s := inject_Z size) in *.
    apply Qle_trans with (s * (M / m)).
    + rewrite !(Qmult_comm s).
      apply Qmult_le_compat_r; [apply Q.le_min_r | lra].
    + setoid_replace (s * (M / m)) with ((s / m) * M) by (field; lra).
      assert (Hq : s / m <= 1) by (apply Qle_shift_div_r; lra).
      apply Qle_trans with (1 * M); [| lra].
      apply Qmult_le_compat_r; [exact Hq | lra].
Qed.

Lemma qmin_one (q : Q) : 1 <= q -> Qmin 1 q = 1.
Proof.
  intros H. unfold Qmin, GenericMinMax.gmin.
  destruct (1 ?= q) eqn:E; try reflexivity.
  apply Qgt_alt in E. exfalso. lra.
Qed.

(** X6.  For an image of non-negative size the processing canvas is at
    least 1 x 1 and at most 1600 x 1600, the scale factor lies in (0, 1],
    and the canvas holds what the image renders at that size; an image
    whose sides are between 1 and 1600 is processed unscaled. *)
Theorem createScaledCanvas_bounds (image : LoadedImage) :
  (0 <= img_width image)%Z -> (0 <= img_height image)%Z ->
  let canvas := fst (GridDetectionService.createScaledCanvas image) in
  let scaleFactor := snd (GridDetectionService.createScaledCanvas image) in
  0 < scaleFactor <= 1
  /\ (1 <= GridDetectionService.width canvas <= 1600)%nat
  /\ (1 <= GridDetectionService.height canvas <= 1600)%nat
  /\ GridDetectionService.data canvas
     = img_render image (GridDetectionService.width canvas)
                  (GridDetectionService.height canvas)
  /\ ((1 <= img_width image <= 1600)%Z -> (1 <= img_height image <= 1600)%Z ->
      scaleFactor = 1
      /\ Z.of_nat (GridDetectionService.width canvas) = img_width image
      /\ Z.of_nat (GridDetectionService.height canvas) = img_height image).
Proof.
  intros Hw Hh. unfold GridDetectionService.createScaledCanvas.
  cbn [fst snd GridDetectionService.width GridDetectionService.height
       GridDetectionService.data].
  unfold GridDetectionService.MAX_PROCESSING_DIMENSION.
  set (scale := scale_for 1600 (img_width image) (img_height image)).
  assert (Hs : 0 < scale) by (apply scale_for_pos; [reflexivity | lia | lia]).
  assert (Hs1 : scale <= 1) by apply scale_for_le_1.
  assert (Hbound : forall size, (0 <= size <= Z.max (img_width image)
                                                   (img_height image))%Z ->
                                (1 <= scaled_size size scale <= 1600)%nat).
  { intros size Hsize. unfold scaled_size.
    pose proof (round_le (inject_Z size * scale) 1600
                         (scaled_product_le 1600 _ _ size eq_refl Hw Hh Hsize)).
    lia. }
  split; [split; assumption |].
  split; [apply Hbound; lia |].
  split; [apply Hbound; lia |].
  split; [reflexivity |].
  intros Hw1 Hh1.
  assert (E : scale = 1).
  { unfold scale, scale_for.
    destruct (Z.max (img_width image) (img_height image) =? 0)%Z eqn:E0;
      [reflexivity |].
    apply qmin_one. apply Qle_shift_div_l.
    - change 0 with (inject_Z 0). rewrite <- Zlt_Qlt. lia.
    - rewrite Qmult_1_l. rewrite <- Zle_Qle. lia. }
  split; [exact E |].
  rewrite E. unfold scaled_size.
  assert (R : forall z, JS.round (inject_Z z * 1) = z).
  { intros z. unfold JS.round.
    rewrite (Qfloor_comp (inject_Z z * 1 + (1 # 2)) (inject_Z z + (1 # 2)))
      by ring.
    apply round_inject_Z. }
  rewrite !R. lia.
Qed.

Lemma createScaledCanvas_bounds_witness :
  snd (GridDetectionService.createScaledCanvas flat_image) = 1
  /\ Z.of_nat (GridDetectionService.width
                 (fst (GridDetectionService.createScaledCanvas flat_image)))
     = 20%Z.
Proof.
  assert (Hw : (0 <= img_width flat_image)%Z) by (simpl; lia).
  assert (Hh : (0 <= img_height flat_image)%Z) by (simpl; lia).
  destruct (createScaledCanvas_bounds flat_image Hw Hh)
    as (_ & _ & _ & _ & Hsmall).
  destruct Hsmall as (E & Ew & _); [simpl; lia | simpl; lia |].
  split; [exact E | exact Ew].
Defined.


(** X7.  The grayscale buffer has one value per pixel, and with channel
    bytes in 0..255 every luminance lies in [0, 255]. *)
Theorem extractGrayscaleData_range (canvas : GridDetectionService.Canvas) :
  (forall i, (0 <= nth i (GridDetectionService.data canvas) 0 <= 255)%Z) ->
  length (GridDetectionService.extractGrayscaleData canvas)
  = (GridDetectionService.width canvas * GridDetectionService.height canvas)%nat
  /\ Forall (fun g => 0 <= g <= 255)
            (GridDetectionService.extractGrayscaleData canvas).
Proof.
  intros Hb. unfold GridDetectionService.extractGrayscaleData.
  split; [rewrite length_map, length_seq; reflexivity |].
  apply Forall_forall. intros g Hg. apply in_map_iff in Hg.
  destruct Hg as (k & <- & _). unfold GridDetectionService.channel.
  pose proof (Hb (4 * k)%nat) as Hr.
  pose proof (Hb (4 * k + 1)%nat) as Hgn.
  pose proof (Hb (4 * k + 2)%nat) as Hbl.
  rewrite !Zle_Qle in Hr, Hgn, Hbl.
  change (inject_Z 0) with 0 in *. change (inject_Z 255) with 255 in *.
  lra.
Qed.

Lemma extractGrayscaleData_range_witness :
  Forall (fun g => 0 <= g <= 255)
         (GridDetectionService.extractGrayscaleData
            (GridDetectionService.mkCanvas 1 1 [255; 0; 128; 255]%Z)).
Proof.
  apply (extractGrayscaleData_range
           (GridDetectionService.mkCanvas 1 1 [255; 0; 128; 255]%Z)).
  intros i. simpl.
  do 4 (destruct i as [| i]; [lia |]). destruct i; lia.
Defined.

Lemma flat_map_length_const {A B} (f : A -> list B) (l : list A) (n : nat) :
  (forall a, In a l -> length (f a) = n) ->
  length (flat_map f l) = (length l * n)%nat.
Proof.
  induction l as [| a l IH]; intros H; simpl; [reflexivity |].
  rewrite length_app, (H a (or_introl eq_refl)), IH; [lia |].
  intros b Hb. apply H. right. exact Hb.
Qed.

(** X8.  The edge magnitude has one value per pixel, none negative when
    [Math.hypot] returns none, and the drop handler's Sobel pass computes
    the same buffer. *)
Theorem computeSobelMagnitude_shape
        (hypot : Q -> Q -> Q) (grayscale : list Q) (w h : nat) :
  length (GridDetectionService.computeSobelMagnitude hypot grayscale w h)
  = (w * h)%nat
  /\ ((forall a b, 0 <= hypot a b) ->
      Forall (fun v => 0 <= v)
             (GridDetectionService.computeSobelMagnitude hypot grayscale w h))
  /\ DropHandler.sobelMagnitude hypot grayscale w h
     = GridDetectionService.computeSobelMagnitude hypot grayscale w h.
Proof.
  split.
  { unfold GridDetectionService.computeSobelMagnitude.
    rewrite (flat_map_length_const _ _ w).
    - rewrite length_seq. lia.
    - intros y _. rewrite length_map, length_seq. reflexivity. }
  split; [| reflexivity].
  intros Hnn. unfold GridDetectionService.computeSobelMagnitude.
  apply Forall_forall. intros v Hv.
  apply in_flat_map in Hv. destruct Hv as (y & _ & Hv).
  apply in_map_iff in Hv. destruct Hv as (x & <- & _).
  destruct (GridDetectionService.gradient_at grayscale w h x y) as [[gx gy] k].
  apply Hnn.
Qed.

Lemma skipn_nth {A} (n : nat) (l : list A) (d : A) :
  (n < length l)%nat -> skipn n l = nth n l d :: skipn (S n) l.
Proof.
  revert l. induction n as [| n IH]; intros l H.
  - destruct l as [| x l]; simpl in H; [lia | reflexivity].
  - destruct l as [| y l]; simpl in H; [lia |].
    simpl. apply IH. lia.
Qed.

Lemma nth_app_length {A} (front back : list A) (d : A) :
  nth (length front) (front ++ back) d = nth 0 back d.
Proof.
  rewrite app_nth2 by lia. rewrite Nat.sub_diag. reflexivity.
Qed.

Lemma fold_left_single {A B} (f : A -> B -> A) (x : B) (a : A) :
  fold_left f [x] a = f a x.
Proof. reflexivity. Qed.

Lemma set_at_app (front : list Q) (v : Q) (back : list Q) (j : nat) (u : Q) :
  length front = j -> JS.set (front ++ v :: back) j u = front ++ u :: back.
Proof. intros <-. rewrite set_app. reflexivity. Qed.

Lemma set_get_app (front : list Q) (v : Q) (back : list Q) (j : nat) (e : Q) :
  length front = j ->
  JS.set (front ++ v :: back) j (JS.get (front ++ v :: back) j + e)
  = front ++ (v + e) :: back.
Proof.
  intros Hj. rewrite (set_at_app front v back j _ Hj).
  subst j. unfold JS.get. rewrite nth_app_length. reflexivity.
Qed.

(** One row of the projection loop, in closed form. *)
Lemma project_row_closed (edge : list Q) (w y : nat) (pX pY : list Q) :
  length pX = w ->
  GridDetectionService.project_row edge w (pX, pY) y
  = (map (fun x => JS.get pX x + JS.get edge (y * w + x)) (seq 0 w),
     JS.set pY y (row_sum edge w y)).
Proof.
  intros Hlen. unfold GridDetectionService.project_row.
  cbv beta iota zeta.
  assert (Hinner : forall j, (j <= w)%nat ->
    fold_left
      (fun '(projectionX, rowSum) x =>
         (JS.set projectionX x
                 (JS.get projectionX x + JS.get edge (y * w + x)),
          rowSum + JS.get edge (y * w + x)))
      (seq 0 j) (pX, 0)
    = (map (fun x => JS.get pX x + JS.get edge (y * w + x)) (seq 0 j)
       ++ skipn j pX,
       fold_left (fun acc x => acc + JS.get edge (y * w + x)) (seq 0 j) 0)).
  { induction j as [| j IH]; intros Hj; [reflexivity |].
    rewrite seq_S, !fold_left_app, IH by lia. simpl fold_left.
    f_equal.
    rewrite (skipn_nth j pX 0) by lia.
    set (front := map _ (seq 0 j)).
    assert (Hf : length front = j)
      by (unfold front; rewrite length_map, length_seq; reflexivity).
    rewrite (set_get_app front _ _ j _ Hf).
    rewrite map_app, <- app_assoc. reflexivity. }
  rewrite (Hinner w (Nat.le_refl w)).
  rewrite skipn_all2 by lia. rewrite app_nil_r. reflexivity.
Qed.

(** X9.  [computeEdgeProjections] returns the column sums and the row
    sums of the magnitude grid: [projectionX] has one entry per column,
    [projectionY] one per row. *)
Theorem computeEdgeProjections_sums (edge : list Q) (w h : nat) :
  GridDetectionService.computeEdgeProjections edge w h
  = (map (column_sum edge w h) (seq 0 w), map (row_sum edge w) (seq 0 h))
  /\ length (fst (GridDetectionService.computeEdgeProjections edge w h)) = w
  /\ length (snd (GridDetectionService.computeEdgeProjections edge w h)) = h
  /\ DropHandler.projections_of edge w h
     = GridDetectionService.computeEdgeProjections edge w h.
Proof.
  assert (Hloop : forall k, (k <= h)%nat ->
    fold_left (GridDetectionService.project_row edge w) (seq 0 k)
              (JS.zeros w, JS.zeros h)
    = (map (column_sum edge w k) (seq 0 w),
       map (row_sum edge w) (seq 0 k) ++ skipn k (JS.zeros h))).
  { induction k as [| k IH]; intros Hk.
    - simpl. f_equal. unfold JS.zeros.
      apply nth_ext with (d := 0) (d' := 0).
      + rewrite repeat_length, length_map, length_seq. reflexivity.
      + intros i Hi. rewrite repeat_length in Hi.
        rewrite nth_map_seq by exact Hi. apply nth_repeat_lt. exact Hi.
    - rewrite seq_S, fold_left_app, IH by lia. rewrite fold_left_single.
      rewrite project_row_closed
        by (rewrite length_map, length_seq; reflexivity).
      f_equal.
      + apply map_ext_in. intros x Hx. apply in_seq in Hx.
        unfold JS.get at 1. rewrite nth_map_seq by lia.
        unfold column_sum. rewrite seq_S, fold_left_app. reflexivity.
      + assert (Hz : (k < length (JS.zeros h))%nat)
          by (unfold JS.zeros; rewrite repeat_length; lia).
        rewrite (skipn_nth k (JS.zeros h) 0 Hz).
        set (front := map _ (seq 0 k)).
        assert (Hf : length front = k)
          by (unfold front; rewrite length_map, length_seq; reflexivity).
        rewrite (set_at_app front _ _ k _ Hf).
        rewrite map_app, <- app_assoc. reflexivity. }
  assert (E : GridDetectionService.computeEdgeProjections edge w h
              = (map (column_sum edge w h) (seq 0 w),
                 map (row_sum edge w) (seq 0 h))).
  { unfold GridDetectionService.computeEdgeProjections.
    rewrite (Hloop h (Nat.le_refl h)).
    unfold JS.zeros. rewrite skipn_all2 by (rewrite repeat_length; lia).
    rewrite app_nil_r. reflexivity. }
  split; [exact E |]. rewrite E. simpl.
  split; [rewrite length_map, length_seq; reflexivity |].
  split; [rewrite length_map, length_seq; reflexivity |].
  rewrite projections_agree. exact E.
Qed.

(** X10.  The offset that [Binary64.estimateGridOffset] returns for a
    signal with at least one sample is the position of a sample: an offset
    past the end of the signal scores [-Infinity] and never replaces the
    best offset. *)
Theorem estimateGridOffset_inside_signal (signal : list float) (period : Z) :
  signal <> [] ->
  (0 <= Binary64.estimateGridOffset signal period
   < Z.of_nat (length signal))%Z.
Proof.
  intros Hne.
  assert (Hl : (0 < length signal)%nat).
  { destruct signal; [congruence | simpl; lia]. }
  destruct (Z.lt_ge_cases period 2) as [H | H].
  - rewrite estimateGridOffset64_small by exact H. lia.
  - destruct (estimateGridOffset64_argmax signal period H)
      as (b & Eb & Hb & Hpos & _ & _).
    rewrite Eb. destruct Hpos as [-> | Hpos]; [lia |].
    unfold computed_average in Hpos.
    destruct (b <? length signal)%nat eqn:E.
    + apply Nat.ltb_lt in E. lia.
    + unfold Binary64.gt in Hpos. rewrite float_ltb_irrefl in Hpos.
      discriminate.
Qed.

Lemma estimateGridOffset_inside_signal_witness :
  (0 <= Binary64.estimateGridOffset [0; 0; 1]%float 7 < 3)%Z.
Proof.
  apply (estimateGridOffset_inside_signal [0; 0; 1]%float 7). discriminate.
Defined.

Lemma detected_period_ge_9 (signalX signalY : list Q) (width height : Z)
      (period : Q) :
  GridDetectionService.detectPeriodFromProjections signalX signalY width height
  = Some period ->
  9 <= period.
Proof.
  intros H. unfold GridDetectionService.detectPeriodFromProjections in H.
  assert (Hp : inject_Z 9 <= period).
  { apply (combine_lower_bound _ _ 9 period) in H; [exact H | |].
    - intros c Hc. apply findBest_value_above_minLag in Hc. lia.
    - intros c Hc. apply findBest_value_above_minLag in Hc. lia. }
  exact Hp.
Qed.

Lemma scaled_offset_inside (p scale : Q) (offset : Z) :
  1 <= p -> 0 < scale ->
  (0 <= offset <= Z.max 0 (JS.round p - 1))%Z ->
  0 <= inject_Z offset * (1 / scale)
  /\ inject_Z offset * (1 / scale) < p * (1 / scale).
Proof.
  intros Hp Hs Ho.
  assert (Hinv : 0 < 1 / scale) by (apply Qlt_shift_div_l; lra).
  assert (H0 : 0 <= inject_Z offset).
  { change 0 with (inject_Z 0). rewrite <- Zle_Qle. lia. }
  assert (Hlt : inject_Z offset < p).
  { destruct (Z_le_dec (JS.round p - 1) 0) as [Hr | Hr].
    - assert (offset = 0%Z) by lia. subst offset.
      change (inject_Z 0) with 0. lra.
    - assert (Ho' : (offset <= JS.round p - 1)%Z) by lia.
      rewrite Zle_Qle in Ho'. unfold Z.sub in Ho'.
      rewrite inject_Z_plus, inject_Z_opp in Ho'.
      change (inject_Z 1) with 1 in Ho'.
      pose proof (round_upper p). lra. }
  split.
  - apply Qmult_le_0_compat; lra.
  - apply Qmult_lt_compat_r; assumption.
Qed.

Lemma build_result_inside (period : Q) (signalX signalY : list Q)
      (scaleFactor : Q) :
  1 <= period -> 0 < scaleFactor ->
  inside_cell (GridDetectionService.buildDetectionResult
                 period signalX signalY scaleFactor).
Proof.
  intros Hp Hs.
  unfold GridDetectionService.buildDetectionResult.
  destruct (scaled_offset_inside period scaleFactor
              (estimateGridOffset signalX (JS.round period)) Hp Hs
              (estimateGridOffset_range _ _)) as [Hx0 Hx1].
  destruct (scaled_offset_inside period scaleFactor
              (estimateGridOffset signalY (JS.round period)) Hp Hs
              (estimateGridOffset_range _ _)) as [Hy0 Hy1].
  eexists. eexists. eexists. split; [reflexivity |].
  repeat split; assumption.
Qed.

(** What the service returns without manual points. *)
Lemma service_automatic (hypot : Q -> Q -> Q) (image : LoadedImage) :
  (0 <= img_width image)%Z -> (0 <= img_height image)%Z ->
  GridDetectionService.detectGridFromImage hypot image None
  = Thrown insufficient_signal
  \/ exists r,
       GridDetectionService.detectGridFromImage hypot image None = Returned r
       /\ inside_cell r
       /\ exists g, gridSize r = JS.Num g /\ 9 <= g.
Proof.
  intros Hw Hh.
  unfold GridDetectionService.detectGridFromImage.
  destruct (GridDetectionService.conditioned hypot image)
    as [[[fx fy] canvas] scale] eqn:Ec.
  assert (Hs : 0 < scale <= 1).
  { unfold GridDetectionService.conditioned,
      GridDetectionService.createScaledCanvas in Ec.
    destruct (GridDetectionService.computeEdgeProjections _ _ _) in Ec.
    injection Ec as _ _ _ <-.
    split; [apply scale_for_pos; [reflexivity | exact Hw | exact Hh]
           | apply scale_for_le_1]. }
  destruct (period_accepted _ _) eqn:Ea; [| left; reflexivity].
  destruct (GridDetectionService.detectPeriodFromProjections _ _ _ _)
    as [p |] eqn:Ep; [| left; reflexivity].
  apply detected_period_ge_9 in Ep.
  right. eexists. split; [reflexivity |]. split.
  - apply build_result_inside; lra.
  - eexists. split; [reflexivity |].
    assert (Hinv : 1 <= 1 / scale) by (apply Qle_shift_div_l; lra).
    apply Qle_trans with (p * 1); [lra |].
    rewrite !(Qmult_comm p). apply Qmult_le_compat_r; lra.
Qed.

(** X11.  Without manual points the service has two outcomes, for every
    image of non-negative size: it throws the insufficient-signal error, or
    it returns a grid size of at least 9 pixels with both offsets inside
    one cell, [0 <= xOffset < gridSize] and [0 <= yOffset < gridSize]. *)
Theorem detectGridFromImage_automatic_outcome
        (hypot : Q -> Q -> Q) (image : LoadedImage) :
  (0 <= img_width image)%Z -> (0 <= img_height image)%Z ->
  GridDetectionService.detectGridFromImage hypot image None
  = Thrown insufficient_signal
  \/ exists r,
       GridDetectionService.detectGridFromImage hypot image None = Returned r
       /\ inside_cell r
       /\ exists g, gridSize r = JS.Num g /\ 9 <= g.
Proof. apply service_automatic. Qed.

Lemma detectGridFromImage_automatic_outcome_witness :
  GridDetectionService.detectGridFromImage hypot_isqrt flat_image None
  = Thrown insufficient_signal
  \/ exists r,
       GridDetectionService.detectGridFromImage hypot_isqrt flat_image None
       = Returned r
       /\ inside_cell r
       /\ exists g, gridSize r = JS.Num g /\ 9 <= g.
Proof.
  apply (detectGridFromImage_automatic_outcome hypot_isqrt flat_image);
    simpl; lia.
Defined.








Lemma repeat_start (n : nat) (c : Z) :
  (0 <= c)%Z ->
  repeat_op Callers.startBusy n c = (c + Z.of_nat n)%Z.
Proof.
  intros Hc. induction n as [| n IH]; simpl repeat_op; [lia |].
  rewrite IH. unfold Callers.startBusy.
  destruct (c + Z.of_nat n =? 0)%Z eqn:E.
  - apply Z.eqb_eq in E. lia.
  - lia.
Qed.

Lemma repeat_end (n : nat) (c : Z) :
  (0 <= c)%Z ->
  repeat_op Callers.endBusy n c = Z.max 0 (c - Z.of_nat n).
Proof.
  intros Hc. induction n as [| n IH]; simpl repeat_op; [lia |].
  rewrite IH. unfold Callers.endBusy.
  destruct (Z.max 0 (c - Z.of_nat n) =? 0)%Z eqn:E.
  - apply Z.eqb_eq in E. lia.
  - apply Z.eqb_neq in E. lia.
Qed.

(** X13.  The busy counters: the drop handler's [startBusy]/[endBusy]
    and the controller's [showProgressIndicator]/[hideProgressIndicator]
    compute the same counts at every integer; a start gives at least 1, an
    end never gives a negative count, an end undoes a start, and from a
    count that is not negative [n] starts followed by [n] ends return to
    it, while further ends stay at 0. *)
Theorem busy_counter_balanced (count : Z) (n m : nat) :
  Callers.startBusy count = Callers.showProgressIndicator count
  /\ Callers.endBusy count = Callers.hideProgressIndicator count
  /\ (1 <= Callers.startBusy count)%Z
  /\ (0 <= Callers.endBusy count)%Z
  /\ Callers.endBusy (Callers.startBusy count) = Z.max 0 count
  /\ ((0 <= count)%Z ->
      repeat_op Callers.endBusy n (repeat_op Callers.startBusy n count)
      = count
      /\ repeat_op Callers.endBusy (n + m) (repeat_op Callers.startBusy n 0)
         = 0%Z).
Proof.
  unfold Callers.startBusy, Callers.endBusy, Callers.showProgressIndicator,
    Callers.hideProgressIndicator.
  split; [destruct (count =? 0)%Z eqn:E;
          [apply Z.eqb_eq in E; subst; reflexivity | reflexivity] |].
  split; [destruct (count =? 0)%Z eqn:E;
          [apply Z.eqb_eq in E; subst; reflexivity | reflexivity] |].
  split; [destruct (count =? 0)%Z; lia |].
  split; [destruct (count =? 0)%Z; lia |].
  split.
  { destruct (count =? 0)%Z eqn:E.
    - apply Z.eqb_eq in E. subst. reflexivity.
    - destruct (Z.max 0 count + 1 =? 0)%Z eqn:E'.
      + apply Z.eqb_eq in E'. lia.
      + lia. }
  intros Hc. split.
  - rewrite repeat_start by exact Hc. rewrite repeat_end by lia. lia.
  - rewrite repeat_start by lia. rewrite repeat_end by lia. lia.
Qed.
